(** * go-sqlmock: the expectation ledger and its matching engine

    A shallow embedding of the mock connection ([mockConn]), the
    transaction and statement handles, the expectation structs and the
    declaration API of [MockDB].  Go pointers are addresses into an
    explicit heap, a Go panic is an explicit outcome, and [fmt.Errorf]
    keeps its format string and its operands. *)

From Stdlib Require Import ZArith String Ascii List Floats.PrimFloat Lia.
From Stdlib Require Import DecimalString DecimalZ.
From stdpp Require Import base list strings gmap.

Open Scope Z_scope.
Open Scope string_scope.

(** ** Go values that travel through [driver.Value] *)

Inductive IntKind := KInt | KInt8 | KInt16 | KInt32 | KInt64.
Inductive UintKind := KUint | KUint8 | KUint16 | KUint32 | KUint64 | KUintptr.
Inductive FloatKind := KFloat32 | KFloat64.

(** A dynamically typed Go value: the nil interface, the scalar types,
    [[]byte] and [time.Time] (seconds and nanoseconds of the instant).
    Integers carry the value [Int()]/[Uint()] reports, floats the
    [float64] that [Float()] reports. *)
Inductive GoValue :=
| VNil
| VBool (b : bool)
| VInt (k : IntKind) (n : Z)
| VUint (k : UintKind) (n : Z)
| VFloat (k : FloatKind) (f : float)
| VString (s : string)
| VBytes (b : list ascii)
| VTime (sec nsec : Z).

Module driver.
Definition Value := GoValue.
End driver.

(** ** Package [reflect]: kinds and the error of a failed getter *)

Module reflect.

Inductive Kind :=
| Invalid | Bool
| Int | Int8 | Int16 | Int32 | Int64
| Uint | Uint8 | Uint16 | Uint32 | Uint64 | Uintptr
| Float32 | Float64 | Complex64 | Complex128
| Array | Chan | Func | Interface | Map | Ptr | Slice
| String | Struct | UnsafePointer.

Definition Kind_eqb (a b : Kind) : bool :=
  match a, b with
  | Invalid, Invalid | Bool, Bool
  | Int, Int | Int8, Int8 | Int16, Int16 | Int32, Int32 | Int64, Int64
  | Uint, Uint | Uint8, Uint8 | Uint16, Uint16 | Uint32, Uint32
  | Uint64, Uint64 | Uintptr, Uintptr
  | Float32, Float32 | Float64, Float64
  | Complex64, Complex64 | Complex128, Complex128
  | Array, Array | Chan, Chan | Func, Func | Interface, Interface
  | Map, Map | Ptr, Ptr | Slice, Slice
  | String, String | Struct, Struct | UnsafePointer, UnsafePointer => true
  | _, _ => false
  end.

(** [*reflect.ValueError]: the getter that was called and the kind of
    the value it was called on. *)
Record ValueError := { Method : string; VEKind : Kind }.

(** [reflect.Value]; [ValueOf(nil)] is the zero Value. *)
Definition Value := GoValue.
Definition ValueOf (i : driver.Value) : Value := i.

End reflect.

(** ** Panics *)

Inductive panicValue :=
| PValueError (ve : reflect.ValueError)
| PRuntimeError (msg : string).

(** The outcome of running Go code that may panic. *)
Inductive outcome (A : Type) :=
| Done (a : A)
| Panic (p : panicValue).
Arguments Done {A} a.
Arguments Panic {A} p.

Definition obind {A B} (m : outcome A) (k : A -> outcome B) : outcome B :=
  match m with
  | Done a => k a
  | Panic p => Panic p
  end.

Declare Scope go_scope.
Delimit Scope go_scope with go.
Notation "x <~ m ;; k" := (obind m (fun x => k))
  (at level 100, m at next level, right associativity) : go_scope.
Open Scope go_scope.

(** ** The part of package [reflect] that [argsMatches] calls *)

Module reflectOps.
Import reflect.

Definition IntKind_Kind (k : IntKind) : Kind :=
  match k with
  | KInt => Int | KInt8 => Int8 | KInt16 => Int16
  | KInt32 => Int32 | KInt64 => Int64
  end.

Definition UintKind_Kind (k : UintKind) : Kind :=
  match k with
  | KUint => Uint | KUint8 => Uint8 | KUint16 => Uint16
  | KUint32 => Uint32 | KUint64 => Uint64 | KUintptr => Uintptr
  end.

Definition FloatKind_Kind (k : FloatKind) : Kind :=
  match k with KFloat32 => Float32 | KFloat64 => Float64 end.

(** [Value.Kind()] *)
Definition Value_Kind (v : Value) : Kind :=
  match v with
  | VNil => Invalid
  | VBool _ => Bool
  | VInt k _ => IntKind_Kind k
  | VUint k _ => UintKind_Kind k
  | VFloat k _ => FloatKind_Kind k
  | VString _ => String
  | VBytes _ => Slice
  | VTime _ _ => Struct
  end.

(** [Value.Int()]: panics with a [*ValueError] unless the kind is one
    of the signed integer kinds. *)
Definition Value_Int (v : Value) : outcome Z :=
  match v with
  | VInt _ n => Done n
  | _ => Panic (PValueError {| Method := "reflect.Value.Int"; VEKind := Value_Kind v |})
  end.

(** [Value.Uint()]: accepts every unsigned kind, [Uintptr] included. *)
Definition Value_Uint (v : Value) : outcome Z :=
  match v with
  | VUint _ n => Done n
  | _ => Panic (PValueError {| Method := "reflect.Value.Uint"; VEKind := Value_Kind v |})
  end.

(** [Value.Float()] *)
Definition Value_Float (v : Value) : outcome float :=
  match v with
  | VFloat _ f => Done f
  | _ => Panic (PValueError {| Method := "reflect.Value.Float"; VEKind := Value_Kind v |})
  end.

(** [Type.String()] of the dynamic type of a value that has one. *)
Definition Type_String (v : Value) : string :=
  match v with
  | VNil => "invalid"
  | VBool _ => "bool"
  | VInt KInt _ => "int"
  | VInt KInt8 _ => "int8"
  | VInt KInt16 _ => "int16"
  | VInt KInt32 _ => "int32"
  | VInt KInt64 _ => "int64"
  | VUint KUint _ => "uint"
  | VUint KUint8 _ => "uint8"
  | VUint KUint16 _ => "uint16"
  | VUint KUint32 _ => "uint32"
  | VUint KUint64 _ => "uint64"
  | VUint KUintptr _ => "uintptr"
  | VFloat KFloat32 _ => "float32"
  | VFloat KFloat64 _ => "float64"
  | VString _ => "string"
  | VBytes _ => "[]uint8"
  | VTime _ _ => "time.Time"
  end.

(** [Value.String()]: the one getter that never panics.  On a value
    whose kind is not [String] it answers ["<T Value>"], with [T] the
    type of the value, and ["<invalid Value>"] on the zero Value. *)
Definition Value_String (v : Value) : string :=
  match v with
  | VString s => s
  | VNil => "<invalid Value>"
  | _ => "<" ++ Type_String v ++ " Value>"
  end.

End reflectOps.


(** ** Package [regexp] *)

Module regexp.
(** A compiled [*regexp.Regexp], seen through the two methods the mock
    calls on it: [String()], the source text it was compiled from, and
    [MatchString], the search it performs. *)
Record Regexp := { String : string; MatchString : string -> bool }.
End regexp.

(** ** Errors *)

(** A Go pointer: an address in the heap of the mock. *)
Abbreviation ptr := nat (only parsing).

(** An operand handed to [fmt.Errorf]. *)
Inductive operand :=
| OString (s : string)
| OValues (vs : option (list driver.Value))
| OExpectation (e : ptr)
| OValueError (se : reflect.ValueError).

(** The value [fmt.Errorf(format, a...)] builds.  The errors a test
    author plans with [WillReturnError] are values of the same type. *)
Inductive error := Errorf (format : string) (a : list operand).

(** ** Query normalisation *)

Definition isSpace (ch : ascii) : bool :=
  match nat_of_ascii ch with
  | 9%nat | 10%nat | 11%nat | 12%nat | 13%nat | 32%nat => true
  | _ => false
  end.

Fixpoint trimLeft (s : string) : string :=
  match s with
  | EmptyString => EmptyString
  | String.String ch rest => if isSpace ch then trimLeft rest else s
  end.

(** [squeeze gap s]: [s] with every run of white space replaced by one
    space and the final run dropped; [gap] tells that a run is open. *)
Fixpoint squeeze (gap : bool) (s : string) : string :=
  match s with
  | EmptyString => EmptyString
  | String.String ch rest =>
      if isSpace ch then squeeze true rest
      else if gap then String.String " " (String.String ch (squeeze false rest))
      else String.String ch (squeeze false rest)
  end.

(** Modelled from the spec: [stripQuery] is called by [mockConn] and
    lives in a file that is not part of the sources at hand.  The spec
    has it collapse interior white-space runs to single spaces and trim
    leading and trailing white space. *)
Definition stripQuery (q : string) : string := squeeze false (trimLeft q).

(** ** The expectation structs *)

(** Modelled from the spec: the programmed payloads are values of the
    interfaces [driver.Result] and [driver.Rows], built by helpers outside
    the sources at hand.  A result reports a last-insert-id and a
    rows-affected count; a row set has column names and rows. *)
Record Result := { LastInsertId : Z; RowsAffected : Z }.
Record Rows := { Columns : list string; Data : list (list driver.Value) }.

Record commonExpectation := {
  triggered : bool;
  err : option error
}.

Definition fulfilled (e : commonExpectation) : bool := triggered e.

Record argExpectation := {
  sqlRegex : regexp.Regexp;
  args : option (list driver.Value)
}.

(** The six concrete expectation structs.  An [expectation] interface
    value is nil or a pointer to one of them. *)
Inductive Expected :=
| ExpectedBegin (ce : commonExpectation)
| ExpectedRollback (ce : commonExpectation)
| ExpectedCommit (ce : commonExpectation)
| ExpectedPrepare (ce : commonExpectation)
| ExpectedQuery (ce : commonExpectation) (ae : argExpectation) (rows : option Rows)
| ExpectedExec (ce : commonExpectation) (ae : argExpectation) (result : option Result).

Abbreviation expectation := (option ptr) (only parsing).

(** The embedded [commonExpectation] of a struct. *)
Definition common (x : Expected) : commonExpectation :=
  match x with
  | ExpectedBegin ce | ExpectedRollback ce | ExpectedCommit ce
  | ExpectedPrepare ce | ExpectedQuery ce _ _ | ExpectedExec ce _ _ => ce
  end.

Definition with_common (ce : commonExpectation) (x : Expected) : Expected :=
  match x with
  | ExpectedBegin _ => ExpectedBegin ce
  | ExpectedRollback _ => ExpectedRollback ce
  | ExpectedCommit _ => ExpectedCommit ce
  | ExpectedPrepare _ => ExpectedPrepare ce
  | ExpectedQuery _ ae rows => ExpectedQuery ce ae rows
  | ExpectedExec _ ae result => ExpectedExec ce ae result
  end.

(** [x.triggered = true] *)
Definition trigger (ce : commonExpectation) : commonExpectation :=
  {| triggered := true; err := err ce |}.

(** [e.args[k]], with the run-time panic of an index out of range. *)
Definition index (l : list driver.Value) (k : nat) : outcome driver.Value :=
  match l !! k with
  | Some a => Done a
  | None => Panic (PRuntimeError "index out of range")
  end.

(** The body of the loop of [argsMatches]: [Done false] where the source
    executes [return false], [Done true] where it goes on. *)
Definition sameArg (v a : driver.Value) : outcome bool :=
  let vi := reflect.ValueOf v in
  let ai := reflect.ValueOf a in
  match reflectOps.Value_Kind vi with
  | reflect.Int | reflect.Int8 | reflect.Int16 | reflect.Int32 | reflect.Int64 =>
      x <~ reflectOps.Value_Int vi ;;
      y <~ reflectOps.Value_Int ai ;;
      Done (x =? y)%Z
  | reflect.Float32 | reflect.Float64 =>
      x <~ reflectOps.Value_Float vi ;;
      y <~ reflectOps.Value_Float ai ;;
      Done (PrimFloat.eqb x y)
  | reflect.Uint | reflect.Uint8 | reflect.Uint16 | reflect.Uint32 | reflect.Uint64 =>
      x <~ reflectOps.Value_Uint vi ;;
      y <~ reflectOps.Value_Uint ai ;;
      Done (x =? y)%Z
  | reflect.String =>
      Done (String.eqb (reflectOps.Value_String vi) (reflectOps.Value_String ai))
  | _ =>
      Done (reflect.Kind_eqb (reflectOps.Value_Kind vi) (reflectOps.Value_Kind ai))
  end.

(** [for k, v := range args { ... }] from position [k] on. *)
Fixpoint argsMatches_range (eargs : list driver.Value) (k : nat)
    (rest : list driver.Value) : outcome bool :=
  match rest with
  | [] => Done true
  | v :: rest' =>
      a <~ index eargs k ;;
      same <~ sameArg v a ;;
      if same then argsMatches_range eargs (S k) rest' else Done false
  end.

Definition argsMatches (e : argExpectation) (actual : list driver.Value) : outcome bool :=
  match args e with
  | None => Done true
  | Some eargs =>
      if negb (length actual =? length eargs)%nat then Done false
      else argsMatches_range eargs 0 actual
  end.

Definition queryMatches (e : argExpectation) (sql : string) : bool :=
  regexp.MatchString (sqlRegex e) sql.

(** ** The heap and the monad of the mock *)

(** The connection struct.  The slice holds pointers to
    the declared expectation structs, in declaration order. *)
Record mockConn := {
  expectations : list ptr;
  active : expectation
}.

(** Every [mockConn] and every expectation struct lives at an address;
    handles, the declaration API and the test share them by pointer. *)
Record Heap := {
  conns : list mockConn;
  objs : list Expected
}.

(** Go code over the heap: it ends with a value or with a panic, and
    leaves a heap behind in both cases. *)
Definition M (A : Type) : Type := Heap -> outcome A * Heap.

Definition ret {A} (a : A) : M A := fun h => (Done a, h).

Definition bind {A B} (m : M A) (k : A -> M B) : M B :=
  fun h =>
    match m h with
    | (Done a, h') => k a h'
    | (Panic p, h') => (Panic p, h')
    end.

Notation "x <- m ;; k" := (bind m (fun x => k))
  (at level 100, m at next level, right associativity) : go_scope.

Definition lift {A} (o : outcome A) : M A := fun h => (o, h).

Definition nilDeref : panicValue :=
  PRuntimeError "invalid memory address or nil pointer dereference".

Definition loadConn (c : ptr) : M mockConn :=
  fun h =>
    match conns h !! c with
    | Some mc => (Done mc, h)
    | None => (Panic nilDeref, h)
    end.

Definition setConn (h : Heap) (c : ptr) (mc : mockConn) : Heap :=
  {| conns := <[c := mc]> (conns h); objs := objs h |}.

Definition storeConn (c : ptr) (mc : mockConn) : M unit :=
  fun h =>
    match conns h !! c with
    | Some _ => (Done tt, setConn h c mc)
    | None => (Panic nilDeref, h)
    end.

Definition loadObj (p : ptr) : M Expected :=
  fun h =>
    match objs h !! p with
    | Some x => (Done x, h)
    | None => (Panic nilDeref, h)
    end.

(** The heap with the struct at [p] overwritten. *)
Definition setObj (h : Heap) (p : ptr) (x : Expected) : Heap :=
  {| conns := conns h; objs := <[p := x]> (objs h) |}.

Definition storeObj (p : ptr) (x : Expected) : M unit :=
  fun h =>
    match objs h !! p with
    | Some _ => (Done tt, setObj h p x)
    | None => (Panic nilDeref, h)
    end.

(** [&T{...}]: a fresh address. *)
Definition allocObj (x : Expected) : M ptr :=
  fun h => (Done (length (objs h)), {| conns := conns h; objs := objs h ++ [x] |}).

Definition allocConn (mc : mockConn) : M ptr :=
  fun h => (Done (length (conns h)), {| conns := conns h ++ [mc]; objs := objs h |}).

(** ** The connection: [mockConn] *)

(** [for _, e = range c.expectations { if !e.fulfilled() { return } }] *)
Fixpoint next_range (es : list ptr) : M expectation :=
  match es with
  | [] => ret None
  | e :: rest =>
      x <- loadObj e ;;
      if negb (fulfilled (common x)) then ret (Some e) else next_range rest
  end.

Definition next (c : ptr) : M expectation :=
  mc <- loadConn c ;;
  next_range (expectations mc).

(** The loop of [Close]: the error of the first expectation that is not
    fulfilled, then [break]. *)
Fixpoint Close_range (es : list ptr) : M (option error) :=
  match es with
  | [] => ret None
  | e :: rest =>
      x <- loadObj e ;;
      if negb (fulfilled (common x))
      then ret (Some (Errorf "there is a remaining expectation %T which was not matched yet"
                             [OExpectation e]))
      else Close_range rest
  end.

Definition Close (c : ptr) : M (option error) :=
  mc <- loadConn c ;;
  err <- Close_range (expectations mc) ;;
  _ <- storeConn c {| expectations := []; active := None |} ;;
  ret err.

Record transaction := { tx_mockConn : ptr }.

Record statement := { stmt_mockConn : ptr; stmt_query : string }.

Definition Begin (c : ptr) : M (option transaction * option error) :=
  e <- next c ;;
  match e with
  | None =>
      ret (None, Some (Errorf "all expectations were already fulfilled, call to begin transaction was not expected" []))
  | Some p =>
      x <- loadObj p ;;
      match x with
      | ExpectedBegin etb =>
          _ <- storeObj p (ExpectedBegin (trigger etb)) ;;
          ret (Some {| tx_mockConn := c |}, err etb)
      | _ =>
          ret (None, Some (Errorf "call to begin transaction, was not expected, next expectation is %T as %+v"
                                  [OExpectation p; OExpectation p]))
      end
  end.

(** [argMatcherErrorHandler(&err)]: [recovered] is what [recover()]
    answers, [errp] the error the pointer designates; the result is the
    error it designates afterwards, or the panic raised again. *)
Definition argMatcherErrorHandler (recovered : option panicValue)
    (errp : option error) : outcome (option error) :=
  match recovered with
  | None => Done errp
  | Some (PValueError se) =>
      Done (Some (Errorf "Failed to compare query arguments: %s" [OValueError se]))
  | Some e => Panic e
  end.

(** [defer argMatcherErrorHandler(&err)] in a function with the named
    results [(res, err)].  A [return] statement assigns both before the
    deferred call runs; a panic reaches it with both still nil. *)
Definition deferred {A} (body : M (option A * option error)) : M (option A * option error) :=
  fun h =>
    match body h with
    | (Done (res, err), h') =>
        (err' <~ argMatcherErrorHandler None err ;; Done (res, err'), h')
    | (Panic p, h') =>
        (err' <~ argMatcherErrorHandler (Some p) None ;; Done (None, err'), h')
    end.

Definition Exec (c : ptr) (query : string) (actual : list driver.Value)
    : M (option Result * option error) :=
  e <- next c ;;
  let query := stripQuery query in
  match e with
  | None =>
      ret (None, Some (Errorf "all expectations were already fulfilled, call to exec '%s' query with args %+v was not expected"
                              [OString query; OValues (Some actual)]))
  | Some p =>
      x <- loadObj p ;;
      match x with
      | ExpectedExec ce ae result =>
          _ <- storeObj p (ExpectedExec (trigger ce) ae result) ;;
          match err ce with
          | Some planned => ret (None, Some planned)
          | None =>
              match result with
              | None =>
                  ret (None, Some (Errorf "exec query '%s' with args %+v, must return a database/sql/driver.result, but it was not set for expectation %T as %+v"
                                          [OString query; OValues (Some actual); OExpectation p; OExpectation p]))
              | Some _ =>
                  deferred
                    (if negb (queryMatches ae query)
                     then ret (None, Some (Errorf "exec query '%s', does not match regex '%s'"
                                                  [OString query; OString (regexp.String (sqlRegex ae))]))
                     else
                       ok <- lift (argsMatches ae actual) ;;
                       if negb ok
                       then ret (None, Some (Errorf "exec query '%s', args %+v does not match expected %+v"
                                                    [OString query; OValues (Some actual); OValues (args ae)]))
                       else ret (result, None))
              end
          end
      | _ =>
          ret (None, Some (Errorf "call to exec query '%s' with args %+v, was not expected, next expectation is %T as %+v"
                                  [OString query; OValues (Some actual); OExpectation p; OExpectation p]))
      end
  end.

Definition Prepare (c : ptr) (query : string) : M (option statement * option error) :=
  e <- next c ;;
  match e with
  | None => ret (Some {| stmt_mockConn := c; stmt_query := stripQuery query |}, None)
  | Some p =>
      x <- loadObj p ;;
      match x with
      | ExpectedPrepare eq =>
          _ <- storeObj p (ExpectedPrepare (trigger eq)) ;;
          match err eq with
          | Some planned => ret (None, Some planned)
          | None => ret (Some {| stmt_mockConn := c; stmt_query := stripQuery query |}, None)
          end
      | _ => ret (Some {| stmt_mockConn := c; stmt_query := stripQuery query |}, None)
      end
  end.

Definition Query (c : ptr) (query : string) (actual : list driver.Value)
    : M (option Rows * option error) :=
  e <- next c ;;
  let query := stripQuery query in
  match e with
  | None =>
      ret (None, Some (Errorf "all expectations were already fulfilled, call to query '%s' with args %+v was not expected"
                              [OString query; OValues (Some actual)]))
  | Some p =>
      x <- loadObj p ;;
      match x with
      | ExpectedQuery ce ae rows =>
          _ <- storeObj p (ExpectedQuery (trigger ce) ae rows) ;;
          match err ce with
          | Some planned => ret (None, Some planned)
          | None =>
              match rows with
              | None =>
                  ret (None, Some (Errorf "query '%s' with args %+v, must return a database/sql/driver.rows, but it was not set for expectation %T as %+v"
                                          [OString query; OValues (Some actual); OExpectation p; OExpectation p]))
              | Some _ =>
                  deferred
                    (if negb (queryMatches ae query)
                     then ret (None, Some (Errorf "query '%s', does not match regex [%s]"
                                                  [OString query; OString (regexp.String (sqlRegex ae))]))
                     else
                       ok <- lift (argsMatches ae actual) ;;
                       if negb ok
                       then ret (None, Some (Errorf "query '%s', args %+v does not match expected %+v"
                                                    [OString query; OValues (Some actual); OValues (args ae)]))
                       else ret (rows, None))
              end
          end
      | _ =>
          ret (None, Some (Errorf "call to query '%s' with args %+v, was not expected, next expectation is %T as %+v"
                                  [OString query; OValues (Some actual); OExpectation p; OExpectation p]))
      end
  end.

(** ** The transaction handle *)

Definition Commit (tx : transaction) : M (option error) :=
  e <- next (tx_mockConn tx) ;;
  match e with
  | None =>
      ret (Some (Errorf "all expectations were already fulfilled, call to commit transaction was not expected" []))
  | Some p =>
      x <- loadObj p ;;
      match x with
      | ExpectedCommit etc =>
          _ <- storeObj p (ExpectedCommit (trigger etc)) ;;
          ret (err etc)
      | _ =>
          ret (Some (Errorf "call to commit transaction, was not expected, next expectation was %v"
                            [OExpectation p]))
      end
  end.

Definition Rollback (tx : transaction) : M (option error) :=
  e <- next (tx_mockConn tx) ;;
  match e with
  | None =>
      ret (Some (Errorf "all expectations were already fulfilled, call to rollback transaction was not expected" []))
  | Some p =>
      x <- loadObj p ;;
      match x with
      | ExpectedRollback etr =>
          _ <- storeObj p (ExpectedRollback (trigger etr)) ;;
          ret (err etr)
      | _ =>
          ret (Some (Errorf "call to rollback transaction, was not expected, next expectation was %v"
                            [OExpectation p]))
      end
  end.

(** ** The statement handle *)

Definition stmt_Exec (stmt : statement) (actual : list driver.Value)
    : M (option Result * option error) :=
  Exec (stmt_mockConn stmt) (stmt_query stmt) actual.

Definition stmt_Query (stmt : statement) (actual : list driver.Value)
    : M (option Rows * option error) :=
  Query (stmt_mockConn stmt) (stmt_query stmt) actual.

(** ** The declaration API: [MockDB] *)

Record MockDB := { c : ptr }.

(** [m.c.expectations = append(m.c.expectations, e); m.c.active = e] *)
Definition declare (m : MockDB) (x : Expected) : M ptr :=
  e <- allocObj x ;;
  mc <- loadConn (c m) ;;
  _ <- storeConn (c m) {| expectations := expectations mc ++ [e]; active := Some e |} ;;
  ret e.

Definition zeroCommon : commonExpectation := {| triggered := false; err := None |}.

Definition ExpectBegin (m : MockDB) : M ptr := declare m (ExpectedBegin zeroCommon).
Definition ExpectCommit (m : MockDB) : M ptr := declare m (ExpectedCommit zeroCommon).
Definition ExpectRollback (m : MockDB) : M ptr := declare m (ExpectedRollback zeroCommon).
Definition ExpectPrepare (m : MockDB) : M ptr := declare m (ExpectedPrepare zeroCommon).

Section Declaration.

(** [regexp.MustCompile]: a compiled expression, or a panic. *)
Variable MustCompile : string -> outcome regexp.Regexp.

Definition ExpectExec (m : MockDB) (sqlRegexStr : string) : M ptr :=
  re <- lift (MustCompile sqlRegexStr) ;;
  declare m (ExpectedExec zeroCommon {| sqlRegex := re; args := None |} None).

Definition ExpectQuery (m : MockDB) (sqlRegexStr : string) : M ptr :=
  re <- lift (MustCompile sqlRegexStr) ;;
  declare m (ExpectedQuery zeroCommon {| sqlRegex := re; args := None |} None).

End Declaration.

(** A builder method: it updates the struct behind its receiver and
    answers the receiver. *)
Definition update (e : ptr) (f : Expected -> Expected) : M ptr :=
  x <- loadObj e ;;
  _ <- storeObj e (f x) ;;
  ret e.

(** [e.err = err], the body of the six [WillReturnError] methods. *)
Definition WillReturnError (e : ptr) (planned : option error) : M ptr :=
  update e (fun x => with_common {| triggered := triggered (common x); err := planned |} x).

(** A variadic parameter that received no operand is the nil slice. *)
Definition variadic (vs : list driver.Value) : option (list driver.Value) :=
  match vs with
  | [] => None
  | _ => Some vs
  end.

Definition set_args (vs : option (list driver.Value)) (ae : argExpectation) : argExpectation :=
  {| sqlRegex := sqlRegex ae; args := vs |}.

(** [e.args = args], on the two structs that have the method. *)
Definition WithArgs (e : ptr) (vs : list driver.Value) : M ptr :=
  update e (fun x =>
    match x with
    | ExpectedQuery ce ae rows => ExpectedQuery ce (set_args (variadic vs) ae) rows
    | ExpectedExec ce ae result => ExpectedExec ce (set_args (variadic vs) ae) result
    | _ => x
    end).

Definition WillReturnRows (e : ptr) (rows : option Rows) : M ptr :=
  update e (fun x =>
    match x with
    | ExpectedQuery ce ae _ => ExpectedQuery ce ae rows
    | _ => x
    end).

Definition WillReturnResult (e : ptr) (result : option Result) : M ptr :=
  update e (fun x =>
    match x with
    | ExpectedExec ce ae _ => ExpectedExec ce ae result
    | _ => x
    end).

(** ** Driver calls as data *)

(** The six kinds of expectation, which are the six kinds of call. *)
Inductive opKind := KBegin | KCommit | KRollback | KPrepare | KExec | KQuery.

(** The dynamic type of an expectation struct. *)
Definition kindOf (x : Expected) : opKind :=
  match x with
  | ExpectedBegin _ => KBegin
  | ExpectedRollback _ => KRollback
  | ExpectedCommit _ => KCommit
  | ExpectedPrepare _ => KPrepare
  | ExpectedQuery _ _ _ => KQuery
  | ExpectedExec _ _ _ => KExec
  end.

(** A call that reaches the connection: directly, through a transaction
    handle or through a statement handle. *)
Inductive call :=
| CBegin
| CCommit
| CRollback
| CPrepare (query : string)
| CExec (query : string) (actual : list driver.Value)
| CQuery (query : string) (actual : list driver.Value).

Definition call_kind (op : call) : opKind :=
  match op with
  | CBegin => KBegin
  | CCommit => KCommit
  | CRollback => KRollback
  | CPrepare _ => KPrepare
  | CExec _ _ => KExec
  | CQuery _ _ => KQuery
  end.

Inductive reply :=
| RBegin (r : option transaction * option error)
| RTx (r : option error)
| RPrepare (r : option statement * option error)
| RExec (r : option Result * option error)
| RQuery (r : option Rows * option error).

Definition dispatch (cn : ptr) (op : call) : M reply :=
  match op with
  | CBegin => r <- Begin cn ;; ret (RBegin r)
  | CCommit => r <- Commit {| tx_mockConn := cn |} ;; ret (RTx r)
  | CRollback => r <- Rollback {| tx_mockConn := cn |} ;; ret (RTx r)
  | CPrepare q => r <- Prepare cn q ;; ret (RPrepare r)
  | CExec q a => r <- Exec cn q a ;; ret (RExec r)
  | CQuery q a => r <- Query cn q a ;; ret (RQuery r)
  end.

(** A test driving the connection: one call after the other. *)
Fixpoint run (cn : ptr) (ops : list call) : M (list reply) :=
  match ops with
  | [] => ret []
  | op :: rest =>
      r <- dispatch cn op ;;
      rs <- run cn rest ;;
      ret (r :: rs)
  end.

(** The error of a reply, and whether it carries a success value. *)
Definition reply_error (r : reply) : option error :=
  match r with
  | RBegin (_, e) | RPrepare (_, e) | RExec (_, e) | RQuery (_, e) => e
  | RTx e => e
  end.

Definition reply_value (r : reply) : bool :=
  match r with
  | RBegin (Some _, _) | RPrepare (Some _, _) | RExec (Some _, _) | RQuery (Some _, _) => true
  | _ => false
  end.

(** ** Reading the heap *)

Definition allocated (h : Heap) (p : ptr) : bool :=
  match objs h !! p with
  | Some _ => true
  | None => false
  end.

(** The heap holds the connection [cn] and every expectation its ledger
    points to. *)
Definition well_formed (h : Heap) (cn : ptr) : bool :=
  match conns h !! cn with
  | Some mc => forallb (allocated h) (expectations mc)
  | None => false
  end.

Definition wf (h : Heap) (cn : ptr) : Prop := well_formed h cn = true.

(** The ledger of a connection: what its slice holds. *)
Definition ledger (h : Heap) (cn : ptr) : list ptr :=
  match conns h !! cn with
  | Some mc => expectations mc
  | None => []
  end.

(** [e.fulfilled()] read at address [p]. *)
Definition fulfilledAt (h : Heap) (p : ptr) : bool :=
  match objs h !! p with
  | Some x => fulfilled (common x)
  | None => false
  end.

Definition unfulfilledAt (h : Heap) (p : ptr) : bool :=
  match objs h !! p with
  | Some x => negb (fulfilled (common x))
  | None => false
  end.

(** Modelled from the spec: the ledger's [allFulfilled()] is no function
    of the sources; the spec has it true iff every stored expectation has
    its fulfilled flag set. *)
Definition allFulfilled (h : Heap) (cn : ptr) : bool :=
  forallb (fulfilledAt h) (ledger h cn).

(** The same check over a given list of expectation pointers. *)
Definition allFulfilledOf (h : Heap) (es : list ptr) : bool :=
  forallb (fulfilledAt h) es.

(** The struct [x] with its [triggered] field set. *)
Definition triggered_copy (x : Expected) : Expected :=
  with_common (trigger (common x)) x.

(** The heap after [x.triggered = true] at address [p]. *)
Definition triggerAt (h : Heap) (p : ptr) : Heap :=
  match objs h !! p with
  | Some x => setObj h p (triggered_copy x)
  | None => h
  end.

(** The heap a run of calls leaves behind. *)
Definition heap_after (cn : ptr) (ops : list call) (h : Heap) : Heap :=
  snd (run cn ops h).

(** Every field of a struct but [triggered]: its dynamic type, planned
    error, pattern, expected arguments and payload. *)
Definition rule (x : Expected) : Expected :=
  with_common {| triggered := false; err := err (common x) |} x.

(** ** The argument matcher in the words of the specification *)

(** The five classes the switch of [argsMatches] sorts the kind of an
    actual value into. *)
Inductive argClass := SignedInteger | UnsignedInteger | FloatingPoint | Text | Other.

Definition classify (k : reflect.Kind) : argClass :=
  match k with
  | reflect.Int | reflect.Int8 | reflect.Int16 | reflect.Int32 | reflect.Int64 => SignedInteger
  | reflect.Uint | reflect.Uint8 | reflect.Uint16 | reflect.Uint32 | reflect.Uint64 =>
      UnsignedInteger
  | reflect.Float32 | reflect.Float64 => FloatingPoint
  | reflect.String => Text
  | _ => Other
  end.

(** Equality by value: two signed integers, two unsigned integers, two
    floats (Go's [==]) or two strings that are equal. *)
Definition valueEqual (v a : GoValue) : bool :=
  match v, a with
  | VInt _ x, VInt _ y => (x =? y)%Z
  | VUint _ x, VUint _ y => (x =? y)%Z
  | VFloat _ x, VFloat _ y => PrimFloat.eqb x y
  | VString s, VString t => String.eqb s t
  | _, _ => false
  end.

(** The coarse type category of two values is the same. *)
Definition sameCategory (v a : GoValue) : bool :=
  reflect.Kind_eqb (reflectOps.Value_Kind v) (reflectOps.Value_Kind a).

Definition positionMatches_spec (v a : GoValue) : bool :=
  match classify (reflectOps.Value_Kind v) with
  | Other => sameCategory v a
  | _ => valueEqual v a
  end.

Fixpoint positionsMatch_spec (actual expected : list GoValue) : bool :=
  match actual, expected with
  | [], [] => true
  | v :: actual', a :: expected' =>
      positionMatches_spec v a && positionsMatch_spec actual' expected'
  | _, _ => false
  end.

(** The matcher as the specification states it: an absent list matches
    everything; otherwise the lengths agree and every position matches. *)
Definition argsMatch_spec (expected : option (list GoValue)) (actual : list GoValue) : bool :=
  match expected with
  | None => true
  | Some l => positionsMatch_spec actual l
  end.

(** An actual string that spells what [String()] answers on an expected
    value that is no string. *)
Definition renderingClash (v a : GoValue) : bool :=
  match v, a with
  | VString _, VString _ => false
  | VString s, _ => String.eqb s (reflectOps.Value_String a)
  | _, _ => false
  end.

Fixpoint anyRenderingClash (actual expected : list GoValue) : bool :=
  match actual, expected with
  | v :: actual', a :: expected' => renderingClash v a || anyRenderingClash actual' expected'
  | _, _ => false
  end.

(** ** Test fixtures *)

Fixpoint hasPrefix (pre s : string) : bool :=
  match pre, s with
  | EmptyString, _ => true
  | String.String a pre', String.String b s' => Ascii.eqb a b && hasPrefix pre' s'
  | String.String _ _, EmptyString => false
  end.

Fixpoint contains (sub s : string) : bool :=
  hasPrefix sub s ||
  match s with
  | EmptyString => false
  | String.String _ s' => contains sub s'
  end.

(** The compiled form of an expression without metacharacters: the
    search for the text itself. *)
Definition literal (expr : string) : regexp.Regexp :=
  {| regexp.String := expr; regexp.MatchString := contains expr |}.

Definition compileLiteral (expr : string) : outcome regexp.Regexp := Done (literal expr).

(** [Open] of the driver: [c = &mockConn{}]. *)
Definition Open : M ptr := allocConn {| expectations := []; active := None |}.

Definition noHeap : Heap := {| conns := []; objs := [] |}.

(** The heap a declaration script leaves behind; its connection is the
    first one allocated. *)
Definition declared {A} (script : M A) : Heap := snd (script noHeap).

Definition db : MockDB := {| c := 0%nat |}.

(** No expectation at all. *)
Definition fxEmpty : Heap := declared Open.

(** [ExpectExec("INSERT INTO articles").WithArgs("hello").WillReturnResult(NewResult(1, 1))] *)
Definition fxExec : Heap :=
  declared (_ <- Open ;;
            e <- ExpectExec compileLiteral db "INSERT INTO articles" ;;
            e <- WithArgs e [VString "hello"] ;;
            WillReturnResult e (Some {| LastInsertId := 1; RowsAffected := 1 |})).

Definition fxRows : Rows :=
  {| Columns := ["id"; "title"]; Data := [[VInt KInt64 5; VString "hello world"]] |}.

(** [ExpectQuery("FROM articles WHERE id =").WithArgs(5).WillReturnRows(rs)] *)
Definition fxQuery : Heap :=
  declared (_ <- Open ;;
            e <- ExpectQuery compileLiteral db "FROM articles WHERE id =" ;;
            e <- WithArgs e [VInt KInt 5] ;;
            WillReturnRows e (Some fxRows)).

(** [ExpectQuery("FROM sales").WithArgs(5.5).WillReturnRows(rs)] *)
Definition fxFloat : Heap :=
  declared (_ <- Open ;;
            e <- ExpectQuery compileLiteral db "FROM sales" ;;
            e <- WithArgs e [VFloat KFloat64 5.5%float] ;;
            WillReturnRows e (Some fxRows)).

(** [ExpectBegin(); ExpectQuery(...); ExpectCommit().WillReturnError(...); ExpectRollback()] *)
Definition fxTx : Heap :=
  declared (_ <- Open ;;
            _ <- ExpectBegin db ;;
            e <- ExpectQuery compileLiteral db "FROM articles WHERE id =" ;;
            e <- WithArgs e [VInt KInt 5] ;;
            _ <- WillReturnRows e (Some fxRows) ;;
            e <- ExpectCommit db ;;
            _ <- WillReturnError e (Some (Errorf "deadlock occured" [])) ;;
            ExpectRollback db).

(** [ExpectPrepare().WillReturnError(...)] *)
Definition fxPrepare : Heap :=
  declared (_ <- Open ;;
            e <- ExpectPrepare db ;;
            WillReturnError e (Some (Errorf "Some DB error occurred" []))).

(** ** The driver registry *)

(** [errors.New(text)] *)
Definition errors_New (text : string) : error := Errorf text [].

(** The width of Go's [int]: a counter that passes [maxInt] wraps to
    [minInt]. *)
Definition maxInt : Z := 2 ^ 63 - 1.

Definition wrapInt (z : Z) : Z := (z + 2 ^ 63) mod 2 ^ 64 - 2 ^ 63.

(** [fmt.Sprintf("%d", z)] *)
Definition Sprintf_d (z : Z) : string := NilZero.string_of_int (Z.to_int z).

(** The driver struct; [connections] maps a DSN to the address of its
    connection.  The mutex is left out: the calls below run one at a time. *)
Record mockDriver := {
  driverName : string;
  sequence : Z;
  connections : gmap string ptr
}.

(** [Open(dsn)] of the driver: the collision error when the DSN has a
    connection, a fresh empty connection ([&conn{}], the zero value of
    the connection struct) registered under it otherwise. *)
Definition mockDriver_Open (dsn : string) (d : mockDriver) (h : Heap)
    : (option ptr * option error) * mockDriver * Heap :=
  match connections d !! dsn with
  | Some _ => ((None, Some (errors_New "DSN collision error")), d, h)
  | None =>
      let cn := length (conns h) in
      ((Some cn, None),
       {| driverName := driverName d; sequence := sequence d;
          connections := <[dsn := cn]> (connections d) |},
       {| conns := conns h ++ [{| expectations := []; active := None |}]; objs := objs h |})
  end.

(** [reserveDSN()]: the DSN of the counter, and the counter incremented. *)
Definition reserveDSN (d : mockDriver) : string * mockDriver :=
  ("mocksql://db/" ++ Sprintf_d (sequence d),
   {| driverName := driverName d; sequence := wrapInt (sequence d + 1);
      connections := connections d |}).

(** [getConnection(dsn)]: the connection of the DSN, or nil. *)
Definition getConnection (dsn : string) (d : mockDriver) : option ptr :=
  connections d !! dsn.

(** Every registered DSN was handed out by [reserveDSN]. *)
Definition reserved (d : mockDriver) : Prop :=
  forall dsn cn, connections d !! dsn = Some cn ->
    exists k, 0 <= k < sequence d /\ dsn = "mocksql://db/" ++ Sprintf_d k.

(** ** More views of the heap *)

(** The expectations that are still to be met, in declaration order. *)
Definition pendingList (h : Heap) (cn : ptr) : list ptr :=
  List.filter (unfulfilledAt h) (ledger h cn).

(** The kind of the struct at an address. *)
Definition kindAt (h : Heap) (p : ptr) : option opKind :=
  match objs h !! p with
  | Some x => Some (kindOf x)
  | None => None
  end.

(** Go's [f != f]: the float is a NaN. *)
Definition isNaN (v : GoValue) : bool :=
  match v with
  | VFloat _ f => negb (PrimFloat.eqb f f)
  | _ => false
  end.

(** The class of values a getter of [reflect.Value] accepts an expected
    value for: [Uint()] accepts [uintptr] too. *)
Definition getterClass (a : GoValue) : argClass :=
  match a with
  | VInt _ _ => SignedInteger
  | VUint _ _ => UnsignedInteger
  | VFloat _ _ => FloatingPoint
  | VString _ => Text
  | _ => Other
  end.

(** The getter [argsMatches] calls for an actual value of a numeric class. *)
Definition getterName (cl : argClass) : string :=
  match cl with
  | SignedInteger => "reflect.Value.Int"
  | UnsignedInteger => "reflect.Value.Uint"
  | FloatingPoint => "reflect.Value.Float"
  | _ => ""
  end.

Definition numericClass (cl : argClass) : bool :=
  match cl with
  | SignedInteger | UnsignedInteger | FloatingPoint => true
  | _ => false
  end.

(** The embedded [argExpectation] of the two structs that have one. *)
Definition argOf (x : Expected) : option argExpectation :=
  match x with
  | ExpectedQuery _ ae _ | ExpectedExec _ ae _ => Some ae
  | _ => None
  end.

(** What a builder leaves alone. *)
Definition keepsLedger (h : Heap) (cn e : ptr) (x : Expected) (b : M ptr) : Prop :=
  exists y,
    b h = (Done e, setObj h e y) /\
    triggered (common y) = triggered (common x) /\ kindOf y = kindOf x /\
    wf (setObj h e y) cn /\ ledger (setObj h e y) cn = ledger h cn /\
    (forall q, fulfilledAt (setObj h e y) q = fulfilledAt h q) /\
    (forall q, q <> e -> objs (setObj h e y) !! q = objs h !! q) /\
    (forall r, next cn h = (Done r, h) -> next cn (setObj h e y) = (Done r, setObj h e y)).

(** The method [WithArgs] on the slice its parameter holds:
    [e.args = args].  A call that lists operands hands it a slice of
    them, a call without operands hands it nil, and a call that spreads a
    slice, [WithArgs(s...)], hands it [s] itself, which may be empty
    without being nil. *)
Definition WithArgs_slice (e : ptr) (s : option (list driver.Value)) : M ptr :=
  update e (fun x =>
    match x with
    | ExpectedQuery ce ae rows => ExpectedQuery ce (set_args s ae) rows
    | ExpectedExec ce ae result => ExpectedExec ce (set_args s ae) result
    | _ => x
    end).

(** * Verification *)

(** ** Reading and writing the heap *)

Lemma allocated_lookup h p :
  allocated h p = true -> exists x, objs h !! p = Some x.
Proof.
  unfold allocated. destruct (objs h !! p) as [x|] eqn:E; [eauto | discriminate].
Qed.

Lemma wf_inv h cn :
  wf h cn ->
  exists mc, conns h !! cn = Some mc /\ forallb (allocated h) (expectations mc) = true.
Proof.
  unfold wf, well_formed. destruct (conns h !! cn) as [mc|]; [eauto | discriminate].
Qed.

Lemma wf_ledger h cn :
  wf h cn -> forallb (allocated h) (ledger h cn) = true.
Proof.
  intros Hwf. destruct (wf_inv _ _ Hwf) as (mc & Hc & Hall).
  unfold ledger. now rewrite Hc.
Qed.

Lemma loadObj_some h p x :
  objs h !! p = Some x -> loadObj p h = (Done x, h).
Proof. intros E. unfold loadObj. now rewrite E. Qed.

Lemma storeObj_some h p x y :
  objs h !! p = Some x -> storeObj p y h = (Done tt, setObj h p y).
Proof. intros E. unfold storeObj. now rewrite E. Qed.

Lemma setObj_lookup_eq h p x y :
  objs h !! p = Some x -> objs (setObj h p y) !! p = Some y.
Proof.
  intros E. unfold setObj; simpl.
  apply list_lookup_insert_eq. now apply lookup_lt_Some in E.
Qed.

Lemma setObj_lookup_ne h p q y :
  p <> q -> objs (setObj h p y) !! q = objs h !! q.
Proof. intros Hne. unfold setObj; simpl. now apply list_lookup_insert_ne. Qed.

Lemma setObj_allocated h p y q :
  allocated (setObj h p y) q = allocated h q.
Proof.
  unfold allocated. destruct (Nat.eq_dec p q) as [->|Hne].
  - destruct (objs h !! q) as [x|] eqn:E.
    + now rewrite (setObj_lookup_eq _ _ _ y E).
    + unfold setObj; simpl. rewrite list_insert_ge; [now rewrite E|].
      now apply lookup_ge_None.
  - now rewrite setObj_lookup_ne.
Qed.

Lemma forallb_pointwise {A} (f g : A -> bool) (l : list A) :
  (forall a, f a = g a) -> forallb f l = forallb g l.
Proof.
  intros Hfg. induction l as [|a l IH]; simpl; [reflexivity|].
  now rewrite Hfg, IH.
Qed.

Lemma setObj_wf h p y cn : wf h cn -> wf (setObj h p y) cn.
Proof.
  unfold wf, well_formed. simpl. destruct (conns h !! cn) as [mc|]; [|discriminate].
  intros Hall. rewrite <- Hall. apply forallb_pointwise. intros q. apply setObj_allocated.
Qed.

Lemma setObj_ledger h p y cn : ledger (setObj h p y) cn = ledger h cn.
Proof. reflexivity. Qed.

(** ** [next] is a search for the first unfulfilled expectation *)

Lemma next_range_find h es :
  forallb (allocated h) es = true ->
  next_range es h = (Done (find (unfulfilledAt h) es), h).
Proof.
  induction es as [|e rest IH]; simpl; intros Hall; [reflexivity|].
  apply andb_prop in Hall as [He Hrest].
  destruct (allocated_lookup _ _ He) as [x Hx].
  unfold bind. rewrite (loadObj_some _ _ _ Hx).
  unfold unfulfilledAt at 1. rewrite Hx.
  destruct (negb (fulfilled (common x))); [reflexivity | now apply IH].
Qed.

Lemma next_find h cn :
  wf h cn -> next cn h = (Done (find (unfulfilledAt h) (ledger h cn)), h).
Proof.
  intros Hwf. destruct (wf_inv _ _ Hwf) as (mc & Hc & Hall).
  unfold next, bind, loadConn, ledger. rewrite Hc. now apply next_range_find.
Qed.

Lemma next_some_lookup h cn p :
  wf h cn -> next cn h = (Done (Some p), h) ->
  exists x, objs h !! p = Some x /\ triggered (common x) = false.
Proof.
  intros Hwf Hn. rewrite (next_find _ _ Hwf) in Hn.
  injection Hn as Hf. apply find_some in Hf as [_ Hu].
  unfold unfulfilledAt in Hu. destruct (objs h !! p) as [x|]; [|discriminate].
  exists x. split; [reflexivity|]. unfold fulfilled in Hu.
  now destruct (triggered (common x)).
Qed.

Lemma unfulfilledAt_fulfilledAt h p :
  allocated h p = true -> unfulfilledAt h p = negb (fulfilledAt h p).
Proof.
  unfold allocated, unfulfilledAt, fulfilledAt.
  destruct (objs h !! p); [reflexivity | discriminate].
Qed.

(** [find] answers the element at the least index that satisfies the test. *)
Lemma find_first {A} (f : A -> bool) (l : list A) (a : A) :
  find f l = Some a <->
  exists i, l !! i = Some a /\ f a = true /\
            forall j b, (j < i)%nat -> l !! j = Some b -> f b = false.
Proof.
  induction l as [|y l IH]; simpl.
  - split; [discriminate|]. intros (i & Hi & _). destruct i; discriminate.
  - destruct (f y) eqn:Hy.
    + split.
      * intros [= ->]. exists 0%nat. repeat split; auto. intros j b Hj. lia.
      * intros (i & Hi & Ha & Hlt). destruct i as [|i].
        { simpl in Hi. congruence. }
        specialize (Hlt 0%nat y ltac:(lia) eq_refl). congruence.
    + rewrite IH. split.
      * intros (i & Hi & Ha & Hlt). exists (S i). repeat split; auto.
        intros [|j] b Hj Hb; simpl in Hb; [congruence|].
        apply (Hlt j); [lia | assumption].
      * intros (i & Hi & Ha & Hlt). destruct i as [|i].
        { simpl in Hi. congruence. }
        exists i. repeat split; auto.
        intros j b Hj Hb. apply (Hlt (S j)); [lia | assumption].
Qed.

Lemma find_none_forallb {A} (f : A -> bool) (l : list A) :
  find f l = None <-> forallb (fun a => negb (f a)) l = true.
Proof.
  induction l as [|y l IH]; simpl; [tauto|].
  destruct (f y); simpl; [split; discriminate | exact IH].
Qed.

(** ** The calls, case by case *)

(** Runs a call whose [next()] and type assertion are known. *)
Ltac run_call Hn Hx :=
  unfold Begin, Commit, Rollback, Prepare, Exec, Query, bind; simpl;
  rewrite Hn; simpl;
  try (rewrite (loadObj_some _ _ _ Hx); simpl;
       try (rewrite (storeObj_some _ _ _ _ Hx); simpl)).

Lemma Begin_none h cn :
  next cn h = (Done None, h) ->
  Begin cn h =
    (Done (None, Some (Errorf "all expectations were already fulfilled, call to begin transaction was not expected" [])), h).
Proof. intros Hn. now run_call Hn Hn. Qed.

Lemma Begin_other h cn p x :
  next cn h = (Done (Some p), h) -> objs h !! p = Some x -> kindOf x <> KBegin ->
  Begin cn h =
    (Done (None, Some (Errorf "call to begin transaction, was not expected, next expectation is %T as %+v"
                              [OExpectation p; OExpectation p])), h).
Proof. intros Hn Hx Hk. run_call Hn Hx. destruct x; simpl in *; first [reflexivity | congruence]. Qed.

Lemma Begin_match h cn p etb :
  next cn h = (Done (Some p), h) -> objs h !! p = Some (ExpectedBegin etb) ->
  Begin cn h =
    (Done (Some {| tx_mockConn := cn |}, err etb), setObj h p (ExpectedBegin (trigger etb))).
Proof. intros Hn Hx. now run_call Hn Hx. Qed.

Lemma Commit_none h cn :
  next cn h = (Done None, h) ->
  Commit {| tx_mockConn := cn |} h =
    (Done (Some (Errorf "all expectations were already fulfilled, call to commit transaction was not expected" [])), h).
Proof. intros Hn. now run_call Hn Hn. Qed.

Lemma Commit_other h cn p x :
  next cn h = (Done (Some p), h) -> objs h !! p = Some x -> kindOf x <> KCommit ->
  Commit {| tx_mockConn := cn |} h =
    (Done (Some (Errorf "call to commit transaction, was not expected, next expectation was %v"
                        [OExpectation p])), h).
Proof. intros Hn Hx Hk. run_call Hn Hx. destruct x; simpl in *; first [reflexivity | congruence]. Qed.

Lemma Commit_match h cn p etc :
  next cn h = (Done (Some p), h) -> objs h !! p = Some (ExpectedCommit etc) ->
  Commit {| tx_mockConn := cn |} h =
    (Done (err etc), setObj h p (ExpectedCommit (trigger etc))).
Proof. intros Hn Hx. now run_call Hn Hx. Qed.

Lemma Rollback_none h cn :
  next cn h = (Done None, h) ->
  Rollback {| tx_mockConn := cn |} h =
    (Done (Some (Errorf "all expectations were already fulfilled, call to rollback transaction was not expected" [])), h).
Proof. intros Hn. now run_call Hn Hn. Qed.

Lemma Rollback_other h cn p x :
  next cn h = (Done (Some p), h) -> objs h !! p = Some x -> kindOf x <> KRollback ->
  Rollback {| tx_mockConn := cn |} h =
    (Done (Some (Errorf "call to rollback transaction, was not expected, next expectation was %v"
                        [OExpectation p])), h).
Proof. intros Hn Hx Hk. run_call Hn Hx. destruct x; simpl in *; first [reflexivity | congruence]. Qed.

Lemma Rollback_match h cn p etr :
  next cn h = (Done (Some p), h) -> objs h !! p = Some (ExpectedRollback etr) ->
  Rollback {| tx_mockConn := cn |} h =
    (Done (err etr), setObj h p (ExpectedRollback (trigger etr))).
Proof. intros Hn Hx. now run_call Hn Hx. Qed.

Lemma Prepare_none h cn query :
  next cn h = (Done None, h) ->
  Prepare cn query h =
    (Done (Some {| stmt_mockConn := cn; stmt_query := stripQuery query |}, None), h).
Proof. intros Hn. now run_call Hn Hn. Qed.

Lemma Prepare_other h cn query p x :
  next cn h = (Done (Some p), h) -> objs h !! p = Some x -> kindOf x <> KPrepare ->
  Prepare cn query h =
    (Done (Some {| stmt_mockConn := cn; stmt_query := stripQuery query |}, None), h).
Proof. intros Hn Hx Hk. run_call Hn Hx. destruct x; simpl in *; first [reflexivity | congruence]. Qed.

Lemma Prepare_match h cn query p eq :
  next cn h = (Done (Some p), h) -> objs h !! p = Some (ExpectedPrepare eq) ->
  Prepare cn query h =
    (Done (match err eq with
           | Some planned => (None, Some planned)
           | None => (Some {| stmt_mockConn := cn; stmt_query := stripQuery query |}, None)
           end),
     setObj h p (ExpectedPrepare (trigger eq))).
Proof. intros Hn Hx. run_call Hn Hx. now destruct (err eq). Qed.

Lemma Exec_none h cn query actual :
  next cn h = (Done None, h) ->
  Exec cn query actual h =
    (Done (None, Some (Errorf "all expectations were already fulfilled, call to exec '%s' query with args %+v was not expected"
                              [OString (stripQuery query); OValues (Some actual)])), h).
Proof. intros Hn. now run_call Hn Hn. Qed.

Lemma Exec_other h cn query actual p x :
  next cn h = (Done (Some p), h) -> objs h !! p = Some x -> kindOf x <> KExec ->
  Exec cn query actual h =
    (Done (None, Some (Errorf "call to exec query '%s' with args %+v, was not expected, next expectation is %T as %+v"
                              [OString (stripQuery query); OValues (Some actual);
                               OExpectation p; OExpectation p])), h).
Proof. intros Hn Hx Hk. run_call Hn Hx. destruct x; simpl in *; first [reflexivity | congruence]. Qed.

Lemma Query_none h cn query actual :
  next cn h = (Done None, h) ->
  Query cn query actual h =
    (Done (None, Some (Errorf "all expectations were already fulfilled, call to query '%s' with args %+v was not expected"
                              [OString (stripQuery query); OValues (Some actual)])), h).
Proof. intros Hn. now run_call Hn Hn. Qed.

Lemma Query_other h cn query actual p x :
  next cn h = (Done (Some p), h) -> objs h !! p = Some x -> kindOf x <> KQuery ->
  Query cn query actual h =
    (Done (None, Some (Errorf "call to query '%s' with args %+v, was not expected, next expectation is %T as %+v"
                              [OString (stripQuery query); OValues (Some actual);
                               OExpectation p; OExpectation p])), h).
Proof. intros Hn Hx Hk. run_call Hn Hx. destruct x; simpl in *; first [reflexivity | congruence]. Qed.

(** What [Exec] and [Query] answer once the expectation is reached, its
    planned error is nil and its payload is set: the comparison under the
    deferred handler. *)
Lemma deferred_compare {A} (h : Heap) (payload : option A) (mismatchQuery mismatchArgs : error)
    (qm : bool) (am : outcome bool) :
  deferred
    (if negb qm then ret (None, Some mismatchQuery)
     else ok <- lift am ;;
          if negb ok then ret (None, Some mismatchArgs) else ret (payload, None)) h =
  (match qm, am with
   | false, _ => Done (None, Some mismatchQuery)
   | true, Done false => Done (None, Some mismatchArgs)
   | true, Done true => Done (payload, None)
   | true, Panic (PValueError se) =>
       Done (None, Some (Errorf "Failed to compare query arguments: %s" [OValueError se]))
   | true, Panic other => Panic other
   end, h).
Proof.
  unfold deferred, bind, lift, ret.
  destruct qm; simpl; [|reflexivity].
  destruct am as [[|]|[se|msg]]; reflexivity.
Qed.

Lemma Exec_match h cn query actual p ce ae result :
  next cn h = (Done (Some p), h) -> objs h !! p = Some (ExpectedExec ce ae result) ->
  Exec cn query actual h =
    (match err ce, result with
     | Some planned, _ => Done (None, Some planned)
     | None, None =>
         Done (None, Some (Errorf "exec query '%s' with args %+v, must return a database/sql/driver.result, but it was not set for expectation %T as %+v"
                                  [OString (stripQuery query); OValues (Some actual);
                                   OExpectation p; OExpectation p]))
     | None, Some r =>
         match queryMatches ae (stripQuery query), argsMatches ae actual with
         | false, _ =>
             Done (None, Some (Errorf "exec query '%s', does not match regex '%s'"
                                      [OString (stripQuery query);
                                       OString (regexp.String (sqlRegex ae))]))
         | true, Done false =>
             Done (None, Some (Errorf "exec query '%s', args %+v does not match expected %+v"
                                      [OString (stripQuery query); OValues (Some actual);
                                       OValues (args ae)]))
         | true, Done true => Done (Some r, None)
         | true, Panic (PValueError se) =>
             Done (None, Some (Errorf "Failed to compare query arguments: %s" [OValueError se]))
         | true, Panic other => Panic other
         end
     end,
     setObj h p (ExpectedExec (trigger ce) ae result)).
Proof.
  intros Hn Hx. run_call Hn Hx.
  destruct (err ce) as [planned|]; [reflexivity|].
  destruct result as [r|]; [|reflexivity].
  apply deferred_compare.
Qed.

Lemma Query_match h cn query actual p ce ae rows :
  next cn h = (Done (Some p), h) -> objs h !! p = Some (ExpectedQuery ce ae rows) ->
  Query cn query actual h =
    (match err ce, rows with
     | Some planned, _ => Done (None, Some planned)
     | None, None =>
         Done (None, Some (Errorf "query '%s' with args %+v, must return a database/sql/driver.rows, but it was not set for expectation %T as %+v"
                                  [OString (stripQuery query); OValues (Some actual);
                                   OExpectation p; OExpectation p]))
     | None, Some r =>
         match queryMatches ae (stripQuery query), argsMatches ae actual with
         | false, _ =>
             Done (None, Some (Errorf "query '%s', does not match regex [%s]"
                                      [OString (stripQuery query);
                                       OString (regexp.String (sqlRegex ae))]))
         | true, Done false =>
             Done (None, Some (Errorf "query '%s', args %+v does not match expected %+v"
                                      [OString (stripQuery query); OValues (Some actual);
                                       OValues (args ae)]))
         | true, Done true => Done (Some r, None)
         | true, Panic (PValueError se) =>
             Done (None, Some (Errorf "Failed to compare query arguments: %s" [OValueError se]))
         | true, Panic other => Panic other
         end
     end,
     setObj h p (ExpectedQuery (trigger ce) ae rows)).
Proof.
  intros Hn Hx. run_call Hn Hx.
  destruct (err ce) as [planned|]; [reflexivity|].
  destruct rows as [r|]; [|reflexivity].
  apply deferred_compare.
Qed.

(** ** The argument matcher panics with a [*reflect.ValueError] only *)

Lemma sameArg_panic v a pv :
  sameArg v a = Panic pv -> exists se, pv = PValueError se.
Proof.
  unfold sameArg, reflect.ValueOf.
  destruct v as [|b|k n|k n|k f|s|b|sec nsec]; simpl; try discriminate.
  - destruct k; simpl; destruct a; simpl; try discriminate; intros [= <-]; eauto.
  - destruct k; simpl; try discriminate; destruct a; simpl; try discriminate;
      intros [= <-]; eauto.
  - destruct k; simpl; destruct a; simpl; try discriminate; intros [= <-]; eauto.
Qed.

Lemma argsMatches_range_panic eargs rest k pv :
  (k + length rest = length eargs)%nat ->
  argsMatches_range eargs k rest = Panic pv -> exists se, pv = PValueError se.
Proof.
  revert k. induction rest as [|v rest IH]; simpl; intros k Hlen; [discriminate|].
  unfold index. destruct (eargs !! k) as [a|] eqn:Ha.
  - simpl. destruct (sameArg v a) as [[|]|pv'] eqn:Hs; simpl.
    + apply IH. lia.
    + discriminate.
    + intros [= <-]. eapply sameArg_panic; eauto.
  - apply lookup_ge_None in Ha. lia.
Qed.

Lemma argsMatches_panic e actual pv :
  argsMatches e actual = Panic pv -> exists se, pv = PValueError se.
Proof.
  unfold argsMatches. destruct (args e) as [eargs|]; [|discriminate].
  destruct (Nat.eqb_spec (length actual) (length eargs)) as [Hlen|Hlen]; simpl;
    [|discriminate].
  apply argsMatches_range_panic. simpl. exact Hlen.
Qed.

(** ** No call panics, and a call writes at most the flag [next()] found *)

Lemma Exec_match_done h cn query actual p ce ae result :
  next cn h = (Done (Some p), h) -> objs h !! p = Some (ExpectedExec ce ae result) ->
  exists r, Exec cn query actual h = (Done r, setObj h p (ExpectedExec (trigger ce) ae result)).
Proof.
  intros Hn Hx. rewrite (Exec_match _ _ _ _ _ _ _ _ Hn Hx).
  destruct (err ce) as [planned|]; [eauto|].
  destruct result as [r|]; [|eauto].
  destruct (queryMatches ae (stripQuery query)); [|eauto].
  destruct (argsMatches ae actual) as [[|]|pv] eqn:Ha; [eauto | eauto |].
  destruct (argsMatches_panic _ _ _ Ha) as [se ->]. eauto.
Qed.

Lemma Query_match_done h cn query actual p ce ae rows :
  next cn h = (Done (Some p), h) -> objs h !! p = Some (ExpectedQuery ce ae rows) ->
  exists r, Query cn query actual h = (Done r, setObj h p (ExpectedQuery (trigger ce) ae rows)).
Proof.
  intros Hn Hx. rewrite (Query_match _ _ _ _ _ _ _ _ Hn Hx).
  destruct (err ce) as [planned|]; [eauto|].
  destruct rows as [r|]; [|eauto].
  destruct (queryMatches ae (stripQuery query)); [|eauto].
  destruct (argsMatches ae actual) as [[|]|pv] eqn:Ha; [eauto | eauto |].
  destruct (argsMatches_panic _ _ _ Ha) as [se ->]. eauto.
Qed.

Lemma dispatch_none h cn op :
  next cn h = (Done None, h) -> exists r, dispatch cn op h = (Done r, h).
Proof.
  intros Hn. destruct op; unfold dispatch, bind.
  - rewrite (Begin_none _ _ Hn). eauto.
  - rewrite (Commit_none _ _ Hn). eauto.
  - rewrite (Rollback_none _ _ Hn). eauto.
  - rewrite (Prepare_none _ _ _ Hn). eauto.
  - rewrite (Exec_none _ _ _ _ Hn). eauto.
  - rewrite (Query_none _ _ _ _ Hn). eauto.
Qed.

Lemma dispatch_other h cn op p x :
  next cn h = (Done (Some p), h) -> objs h !! p = Some x -> kindOf x <> call_kind op ->
  exists r, dispatch cn op h = (Done r, h).
Proof.
  intros Hn Hx Hk. destruct op; unfold dispatch, bind; simpl in Hk.
  - rewrite (Begin_other _ _ _ _ Hn Hx Hk). eauto.
  - rewrite (Commit_other _ _ _ _ Hn Hx Hk). eauto.
  - rewrite (Rollback_other _ _ _ _ Hn Hx Hk). eauto.
  - rewrite (Prepare_other _ _ _ _ _ Hn Hx Hk). eauto.
  - rewrite (Exec_other _ _ _ _ _ _ Hn Hx Hk). eauto.
  - rewrite (Query_other _ _ _ _ _ _ Hn Hx Hk). eauto.
Qed.

Lemma dispatch_match h cn op p x :
  next cn h = (Done (Some p), h) -> objs h !! p = Some x -> kindOf x = call_kind op ->
  exists r, dispatch cn op h = (Done r, setObj h p (triggered_copy x)).
Proof.
  intros Hn Hx Hk.
  destruct op; destruct x; simpl in Hk; try discriminate; unfold dispatch, bind.
  - rewrite (Begin_match _ _ _ _ Hn Hx). eauto.
  - rewrite (Commit_match _ _ _ _ Hn Hx). eauto.
  - rewrite (Rollback_match _ _ _ _ Hn Hx). eauto.
  - rewrite (Prepare_match _ _ _ _ _ Hn Hx). eauto.
  - destruct (Exec_match_done _ _ query actual _ _ _ _ Hn Hx) as [r ->]. eauto.
  - destruct (Query_match_done _ _ query actual _ _ _ _ Hn Hx) as [r ->]. eauto.
Qed.

Lemma opKind_eq_dec (a b : opKind) : {a = b} + {a <> b}.
Proof. decide equality. Qed.

(** The three ways a call can go. *)
Lemma dispatch_cases h cn op :
  wf h cn ->
  (next cn h = (Done None, h) /\ exists r, dispatch cn op h = (Done r, h))
  \/ (exists p x, next cn h = (Done (Some p), h) /\ objs h !! p = Some x /\
        triggered (common x) = false /\ kindOf x <> call_kind op /\
        exists r, dispatch cn op h = (Done r, h))
  \/ (exists p x, next cn h = (Done (Some p), h) /\ objs h !! p = Some x /\
        triggered (common x) = false /\ kindOf x = call_kind op /\
        exists r, dispatch cn op h = (Done r, setObj h p (triggered_copy x))).
Proof.
  intros Hwf. pose proof (next_find _ _ Hwf) as Hn.
  destruct (find (unfulfilledAt h) (ledger h cn)) as [p|].
  - right. destruct (next_some_lookup _ _ _ Hwf Hn) as (x & Hx & Ht).
    destruct (opKind_eq_dec (kindOf x) (call_kind op)) as [Hk|Hk].
    + right. exists p, x. repeat split; auto. now apply dispatch_match.
    + left. exists p, x. repeat split; auto. now apply (dispatch_other _ _ _ p x).
  - left. split; [assumption|]. now apply dispatch_none.
Qed.

Lemma dispatch_wf h cn op :
  wf h cn -> wf (snd (dispatch cn op h)) cn.
Proof.
  intros Hwf.
  destruct (dispatch_cases h cn op Hwf)
    as [(_ & r & ->) | [(p & x & _ & _ & _ & _ & r & ->) | (p & x & _ & _ & _ & _ & r & ->)]];
    simpl; auto using setObj_wf.
Qed.

Lemma dispatch_done h cn op :
  wf h cn -> exists r, fst (dispatch cn op h) = Done r.
Proof.
  intros Hwf.
  destruct (dispatch_cases h cn op Hwf)
    as [(_ & r & ->) | [(p & x & _ & _ & _ & _ & r & ->) | (p & x & _ & _ & _ & _ & r & ->)]];
    simpl; eauto.
Qed.

(** Over a struct of the heap, a call is the identity or [x.triggered = true]. *)
Lemma dispatch_objs h cn op q y :
  wf h cn -> objs h !! q = Some y ->
  objs (snd (dispatch cn op h)) !! q = Some y \/
  (objs (snd (dispatch cn op h)) !! q = Some (triggered_copy y) /\
   triggered (common y) = false /\ kindOf y = call_kind op /\
   next cn h = (Done (Some q), h)).
Proof.
  intros Hwf Hy.
  destruct (dispatch_cases h cn op Hwf)
    as [(_ & r & ->) | [(p & x & _ & _ & _ & _ & r & ->) | (p & x & Hn & Hx & Ht & Hk & r & ->)]];
    cbn [snd]; auto.
  destruct (Nat.eq_dec p q) as [->|Hne].
  - right. assert (x = y) as -> by congruence.
    rewrite (setObj_lookup_eq _ _ _ (triggered_copy y) Hy). auto.
  - left. now rewrite setObj_lookup_ne.
Qed.

(** ** The ledger is consumed front to back *)

Lemma forallb_lookup {A} (f : A -> bool) (l : list A) (i : nat) (a : A) :
  forallb f l = true -> l !! i = Some a -> f a = true.
Proof.
  intros Hall Hi. rewrite forallb_forall in Hall. apply Hall.
  apply list_elem_of_In. apply list_elem_of_lookup. eauto.
Qed.

Lemma fulfilledAt_setObj_triggered h p x :
  objs h !! p = Some x -> fulfilledAt (setObj h p (triggered_copy x)) p = true.
Proof.
  intros Hx. unfold fulfilledAt. rewrite (setObj_lookup_eq _ _ _ _ Hx).
  now destruct x.
Qed.

(** The search of [next] and [Close], read on the flags. *)
Lemma first_unfulfilled_index h (es : list ptr) p :
  forallb (allocated h) es = true ->
  (find (unfulfilledAt h) es = Some p <->
   exists i, es !! i = Some p /\ fulfilledAt h p = false /\
     forall j q, (j < i)%nat -> es !! j = Some q -> fulfilledAt h q = true).
Proof.
  intros Hall. rewrite find_first. split; intros (i & Hi & Hp & Hlt); exists i.
  - pose proof (forallb_lookup _ _ _ _ Hall Hi) as Ha.
    rewrite (unfulfilledAt_fulfilledAt _ _ Ha) in Hp.
    repeat split; [assumption | now destruct (fulfilledAt h p) |].
    intros j q Hj Hq. specialize (Hlt j q Hj Hq).
    rewrite (unfulfilledAt_fulfilledAt _ _ (forallb_lookup _ _ _ _ Hall Hq)) in Hlt.
    now destruct (fulfilledAt h q).
  - pose proof (forallb_lookup _ _ _ _ Hall Hi) as Ha.
    repeat split; [assumption | |].
    + rewrite (unfulfilledAt_fulfilledAt _ _ Ha). now rewrite Hp.
    + intros j q Hj Hq.
      rewrite (unfulfilledAt_fulfilledAt _ _ (forallb_lookup _ _ _ _ Hall Hq)).
      now rewrite (Hlt j q Hj Hq).
Qed.

Lemma none_unfulfilled_all h (es : list ptr) :
  forallb (allocated h) es = true ->
  (find (unfulfilledAt h) es = None <-> forallb (fulfilledAt h) es = true).
Proof.
  intros Hall.
  pose proof (find_none_forallb (unfulfilledAt h) es) as Hnone.
  assert (Heq : forallb (fun a => negb (unfulfilledAt h a)) es = forallb (fulfilledAt h) es).
  { induction es as [|a l IH]; simpl; [reflexivity|].
    simpl in Hall. apply andb_prop in Hall as [Ha Hl].
    rewrite (unfulfilledAt_fulfilledAt _ _ Ha), (IH Hl).
    - now destruct (fulfilledAt h a).
    - apply find_none_forallb. }
  now rewrite Heq in Hnone.
Qed.

(** C1. On every well-formed heap [next()] ends without a panic, leaves
    the heap as it is, and answers the pointer that stands at the least
    index of the ledger among those whose fulfilled flag is false; it
    answers nil exactly when the ledger is empty or every expectation is
    fulfilled.  A call sets the flag of an expectation only if every
    expectation declared before it is fulfilled already. *)
Theorem next_returns_first_unfulfilled (h : Heap) (cn : ptr) (Hwf : wf h cn) :
  exists e : expectation,
    next cn h = (Done e, h) /\
    (forall p, e = Some p <->
       exists i, ledger h cn !! i = Some p /\ fulfilledAt h p = false /\
         forall j q, (j < i)%nat -> ledger h cn !! j = Some q -> fulfilledAt h q = true) /\
    (e = None <-> ledger h cn = [] \/ allFulfilled h cn = true) /\
    (forall op q,
       fulfilledAt h q = false -> fulfilledAt (snd (dispatch cn op h)) q = true ->
       exists i, ledger h cn !! i = Some q /\
         forall j q', (j < i)%nat -> ledger h cn !! j = Some q' -> fulfilledAt h q' = true).
Proof.
  pose proof (wf_ledger _ _ Hwf) as Hall.
  exists (find (unfulfilledAt h) (ledger h cn)).
  split; [now apply next_find|].
  split; [intros p; now apply first_unfulfilled_index|]. split.
  - pose proof (none_unfulfilled_all h _ Hall) as [Hn1 Hn2].
    unfold allFulfilled. split; [auto|].
    intros [Hnil|Hf]; apply Hn2; [now rewrite Hnil | assumption].
  - intros op q Hq Hq'.
    assert (Hfound : find (unfulfilledAt h) (ledger h cn) = Some q);
      [| apply (first_unfulfilled_index h _ q Hall) in Hfound as (i & Hi & _ & Hlt); eauto].
    destruct (dispatch_cases h cn op Hwf)
      as [(_ & r & Hd) | [(p & x & _ & _ & _ & _ & r & Hd) | (p & x & Hn & Hx & _ & _ & r & Hd)]];
      rewrite Hd in Hq'; cbn [snd] in Hq'; try congruence.
    destruct (Nat.eq_dec p q) as [->|Hne].
    + rewrite (next_find _ _ Hwf) in Hn. congruence.
    + unfold fulfilledAt in Hq, Hq'. rewrite setObj_lookup_ne in Hq' by assumption.
      congruence.
Qed.

Lemma next_returns_first_unfulfilled_witness :
  exists e : expectation, next 0%nat fxTx = (Done e, fxTx) /\ e = Some 0%nat.
Proof.
  destruct (next_returns_first_unfulfilled fxTx 0%nat ltac:(reflexivity))
    as (e & Hn & Hfirst & _).
  exists e. split; [exact Hn|].
  apply Hfirst. exists 0%nat. repeat split. intros j q Hj. lia.
Defined.

(** ** The order of the checks of [Exec] and [Query] *)

Lemma pair_fst_eq {A B} (a a' : A) (b b' : B) : (a, b) = (a', b') -> a = a'.
Proof. congruence. Qed.

(** C2, as stated, fails: arguments that do not match are not always
    answered with the error that carries both argument lists.  The
    expectation was declared with the float 5.5 and the call passes the
    integer 5; no error is planned, the rows are set and the pattern
    matches.  The comparison panics, the deferred handler recovers, and
    [Query] answers the error of a comparison that failed, which carries
    neither list. *)
Lemma args_mismatch_error_counterexample :
  argsMatch_spec (Some [VFloat KFloat64 5.5%float]) [VInt KInt64 5] = false /\
  next 0%nat fxFloat = (Done (Some 0%nat), fxFloat) /\
  (exists ce ae rows,
     objs fxFloat !! 0%nat = Some (ExpectedQuery ce ae (Some rows)) /\
     err ce = None /\ args ae = Some [VFloat KFloat64 5.5%float] /\
     queryMatches ae (stripQuery "SELECT * FROM sales WHERE x = ?") = true) /\
  fst (Query 0%nat "SELECT * FROM sales WHERE x = ?" [VInt KInt64 5] fxFloat) =
    Done (None, Some (Errorf "Failed to compare query arguments: %s"
                             [OValueError {| reflect.Method := "reflect.Value.Int";
                                             reflect.VEKind := reflect.Float64 |}])) /\
  fst (Query 0%nat "SELECT * FROM sales WHERE x = ?" [VInt KInt64 5] fxFloat) <>
    Done (None, Some (Errorf "query '%s', args %+v does not match expected %+v"
                             [OString "SELECT * FROM sales WHERE x = ?";
                              OValues (Some [VInt KInt64 5]);
                              OValues (Some [VFloat KFloat64 5.5%float])])).
Proof.
  split; [reflexivity|]. split; [reflexivity|]. split.
  - eexists _, _, _. repeat split.
  - split; [reflexivity | discriminate].
Qed.

(** C2, amended. When [next()] answers an [*ExpectedExec] to [Exec] (an
    [*ExpectedQuery] to [Query]), the call ends without a panic on the
    heap in which that expectation is triggered, whatever it answers.  A
    planned error is answered first; otherwise a missing payload is a
    configuration error; otherwise a pattern that does not match is an
    error that carries the stripped query and the expression; otherwise
    the arguments are compared, and the comparison ends in one of three
    ways, and no other: it answers no match, and the call answers the
    error that carries both argument lists; it panics with a
    [*reflect.ValueError], and the call answers the error of a
    comparison that failed, which carries that value and neither list;
    it answers a match, and the call answers the payload.  The payload is
    answered exactly when no error is planned, the payload is set and
    both checks pass. *)
Theorem exec_query_check_order (h : Heap) (cn p : ptr) (query : string)
    (actual : list driver.Value) (Hn : next cn h = (Done (Some p), h)) :
  (forall ce ae result,
     objs h !! p = Some (ExpectedExec ce ae result) ->
     exists r,
       Exec cn query actual h = (Done r, setObj h p (ExpectedExec (trigger ce) ae result)) /\
       (forall planned, err ce = Some planned -> r = (None, Some planned)) /\
       (err ce = None -> result = None ->
        r = (None, Some (Errorf "exec query '%s' with args %+v, must return a database/sql/driver.result, but it was not set for expectation %T as %+v"
                                [OString (stripQuery query); OValues (Some actual);
                                 OExpectation p; OExpectation p]))) /\
       (err ce = None -> result <> None -> queryMatches ae (stripQuery query) = false ->
        r = (None, Some (Errorf "exec query '%s', does not match regex '%s'"
                                [OString (stripQuery query);
                                 OString (regexp.String (sqlRegex ae))]))) /\
       (err ce = None -> result <> None -> queryMatches ae (stripQuery query) = true ->
        argsMatches ae actual = Done false ->
        r = (None, Some (Errorf "exec query '%s', args %+v does not match expected %+v"
                                [OString (stripQuery query); OValues (Some actual);
                                 OValues (args ae)]))) /\
       (err ce = None -> result <> None -> queryMatches ae (stripQuery query) = true ->
        forall se, argsMatches ae actual = Panic (PValueError se) ->
        r = (None, Some (Errorf "Failed to compare query arguments: %s" [OValueError se]))) /\
       ((exists b, argsMatches ae actual = Done b) \/
        (exists se, argsMatches ae actual = Panic (PValueError se))) /\
       (forall payload,
          r = (Some payload, None) <->
          err ce = None /\ result = Some payload /\
          queryMatches ae (stripQuery query) = true /\ argsMatches ae actual = Done true) /\
       (forall payload, fst r = Some payload -> r = (Some payload, None)))
  /\
  (forall ce ae rows,
     objs h !! p = Some (ExpectedQuery ce ae rows) ->
     exists r,
       Query cn query actual h = (Done r, setObj h p (ExpectedQuery (trigger ce) ae rows)) /\
       (forall planned, err ce = Some planned -> r = (None, Some planned)) /\
       (err ce = None -> rows = None ->
        r = (None, Some (Errorf "query '%s' with args %+v, must return a database/sql/driver.rows, but it was not set for expectation %T as %+v"
                                [OString (stripQuery query); OValues (Some actual);
                                 OExpectation p; OExpectation p]))) /\
       (err ce = None -> rows <> None -> queryMatches ae (stripQuery query) = false ->
        r = (None, Some (Errorf "query '%s', does not match regex [%s]"
                                [OString (stripQuery query);
                                 OString (regexp.String (sqlRegex ae))]))) /\
       (err ce = None -> rows <> None -> queryMatches ae (stripQuery query) = true ->
        argsMatches ae actual = Done false ->
        r = (None, Some (Errorf "query '%s', args %+v does not match expected %+v"
                                [OString (stripQuery query); OValues (Some actual);
                                 OValues (args ae)]))) /\
       (err ce = None -> rows <> None -> queryMatches ae (stripQuery query) = true ->
        forall se, argsMatches ae actual = Panic (PValueError se) ->
        r = (None, Some (Errorf "Failed to compare query arguments: %s" [OValueError se]))) /\
       ((exists b, argsMatches ae actual = Done b) \/
        (exists se, argsMatches ae actual = Panic (PValueError se))) /\
       (forall payload,
          r = (Some payload, None) <->
          err ce = None /\ rows = Some payload /\
          queryMatches ae (stripQuery query) = true /\ argsMatches ae actual = Done true) /\
       (forall payload, fst r = Some payload -> r = (Some payload, None))).
Proof.
  split.
  - intros ce ae result Hx.
    destruct (Exec_match_done _ _ query actual _ _ _ _ Hn Hx) as [r Hr].
    exists r. split; [exact Hr|].
    assert (Hex : (exists b, argsMatches ae actual = Done b) \/
                  (exists se, argsMatches ae actual = Panic (PValueError se))).
    { destruct (argsMatches ae actual) as [b|pv] eqn:Ha; [eauto|].
      destruct (argsMatches_panic _ _ _ Ha) as [se ->]. eauto. }
    rewrite (Exec_match _ _ _ _ _ _ _ _ Hn Hx) in Hr. apply pair_fst_eq in Hr.
    destruct (err ce) as [planned|].
    { injection Hr as <-. repeat split; intros; simpl in *; try congruence.
      all: intuition congruence. }
    destruct result as [res|].
    2:{ injection Hr as <-. repeat split; intros; simpl in *; try congruence.
        all: intuition congruence. }
    destruct (queryMatches ae (stripQuery query)).
    2:{ injection Hr as <-. repeat split; intros; simpl in *; try congruence.
        all: intuition congruence. }
    destruct (argsMatches ae actual) as [[|]|[se|msg]]; try discriminate;
      injection Hr as <-; repeat split; intros; simpl in *; try congruence.
    all: intuition congruence.
  - intros ce ae rows Hx.
    destruct (Query_match_done _ _ query actual _ _ _ _ Hn Hx) as [r Hr].
    exists r. split; [exact Hr|].
    assert (Hex : (exists b, argsMatches ae actual = Done b) \/
                  (exists se, argsMatches ae actual = Panic (PValueError se))).
    { destruct (argsMatches ae actual) as [b|pv] eqn:Ha; [eauto|].
      destruct (argsMatches_panic _ _ _ Ha) as [se ->]. eauto. }
    rewrite (Query_match _ _ _ _ _ _ _ _ Hn Hx) in Hr. apply pair_fst_eq in Hr.
    destruct (err ce) as [planned|].
    { injection Hr as <-. repeat split; intros; simpl in *; try congruence.
      all: intuition congruence. }
    destruct rows as [res|].
    2:{ injection Hr as <-. repeat split; intros; simpl in *; try congruence.
        all: intuition congruence. }
    destruct (queryMatches ae (stripQuery query)).
    2:{ injection Hr as <-. repeat split; intros; simpl in *; try congruence.
        all: intuition congruence. }
    destruct (argsMatches ae actual) as [[|]|[se|msg]]; try discriminate;
      injection Hr as <-; repeat split; intros; simpl in *; try congruence.
    all: intuition congruence.
Qed.

Lemma exec_query_check_order_witness :
  (exists r,
     fst (Exec 0%nat "INSERT INTO articles (title) VALUES (?)" [VString "hello"] fxExec) = Done r /\
     r = (Some {| LastInsertId := 1; RowsAffected := 1 |}, None)) /\
  (exists r,
     fst (Query 0%nat "SELECT title FROM articles WHERE id = ?" [VInt KInt64 6] fxQuery) = Done r /\
     r = (None, Some (Errorf "query '%s', args %+v does not match expected %+v"
                             [OString "SELECT title FROM articles WHERE id = ?";
                              OValues (Some [VInt KInt64 6]); OValues (Some [VInt KInt 5])]))) /\
  (exists r,
     fst (Query 0%nat "SELECT * FROM sales WHERE x = ?" [VInt KInt64 5] fxFloat) = Done r /\
     r = (None, Some (Errorf "Failed to compare query arguments: %s"
                             [OValueError {| reflect.Method := "reflect.Value.Int";
                                             reflect.VEKind := reflect.Float64 |}]))).
Proof.
  split; [|split].
  - destruct (exec_query_check_order fxExec 0%nat 0%nat
                "INSERT INTO articles (title) VALUES (?)" [VString "hello"] eq_refl)
      as [HE _].
    edestruct HE as (r & Hr & _ & _ & _ & _ & _ & _ & Hpay & _); [reflexivity|].
    exists r. split; [now rewrite Hr|]. apply Hpay. repeat split.
  - destruct (exec_query_check_order fxQuery 0%nat 0%nat
                "SELECT title FROM articles WHERE id = ?" [VInt KInt64 6] eq_refl)
      as [_ HQ].
    edestruct HQ as (r & Hr & _ & _ & _ & Hargs & _); [reflexivity|].
    exists r. split; [now rewrite Hr|]. apply Hargs; [reflexivity | discriminate | reflexivity | reflexivity].
  - destruct (exec_query_check_order fxFloat 0%nat 0%nat
                "SELECT * FROM sales WHERE x = ?" [VInt KInt64 5] eq_refl)
      as [_ HQ].
    edestruct HQ as (r & Hr & _ & _ & _ & _ & Hpanic & _); [reflexivity|].
    exists r. split; [now rewrite Hr|].
    apply Hpanic; [reflexivity | discriminate | reflexivity | reflexivity].
Defined.

(** ** [Prepare] without a pending [*ExpectedPrepare] *)

(** C3. When [next()] answers nil, or a pointer to a struct that is not
    an [*ExpectedPrepare], [Prepare] answers a statement handle that
    holds the connection and the stripped query, answers no error, and
    leaves the heap as it is.  [Exec] and [Query] on the same heap, when
    [next()] answers nil, answer no payload and the error of a call that
    was not expected. *)
Theorem prepare_without_expectation (h : Heap) (cn : ptr) (query : string)
    (Hpend : next cn h = (Done None, h) \/
             exists p x, next cn h = (Done (Some p), h) /\ objs h !! p = Some x /\
                         kindOf x <> KPrepare) :
  Prepare cn query h =
    (Done (Some {| stmt_mockConn := cn; stmt_query := stripQuery query |}, None), h) /\
  (next cn h = (Done None, h) ->
   forall actual,
     Exec cn query actual h =
       (Done (None, Some (Errorf "all expectations were already fulfilled, call to exec '%s' query with args %+v was not expected"
                                 [OString (stripQuery query); OValues (Some actual)])), h) /\
     Query cn query actual h =
       (Done (None, Some (Errorf "all expectations were already fulfilled, call to query '%s' with args %+v was not expected"
                                 [OString (stripQuery query); OValues (Some actual)])), h)).
Proof.
  split.
  - destruct Hpend as [Hn | (p & x & Hn & Hx & Hk)].
    + now apply Prepare_none.
    + now apply (Prepare_other _ _ _ p x).
  - intros Hn actual. split; [now apply Exec_none | now apply Query_none].
Qed.

Lemma prepare_without_expectation_witness :
  Prepare 0%nat "SELECT  title FROM articles" fxEmpty =
    (Done (Some {| stmt_mockConn := 0%nat; stmt_query := "SELECT title FROM articles" |}, None),
     fxEmpty) /\
  Prepare 0%nat "SELECT title FROM articles" fxQuery =
    (Done (Some {| stmt_mockConn := 0%nat; stmt_query := "SELECT title FROM articles" |}, None),
     fxQuery).
Proof.
  split.
  - apply (prepare_without_expectation fxEmpty 0%nat "SELECT  title FROM articles").
    left. reflexivity.
  - apply (prepare_without_expectation fxQuery 0%nat "SELECT title FROM articles").
    right. eexists 0%nat, _. split; [reflexivity | split; [reflexivity | discriminate]].
Defined.

(** ** [Close] *)

Lemma Close_range_find h es :
  forallb (allocated h) es = true ->
  Close_range es h =
    (Done (match find (unfulfilledAt h) es with
           | Some p => Some (Errorf "there is a remaining expectation %T which was not matched yet"
                                    [OExpectation p])
           | None => None
           end), h).
Proof.
  induction es as [|e rest IH]; simpl; intros Hall; [reflexivity|].
  apply andb_prop in Hall as [He Hrest].
  destruct (allocated_lookup _ _ He) as [x Hx].
  unfold bind. rewrite (loadObj_some _ _ _ Hx).
  unfold unfulfilledAt at 1. rewrite Hx.
  destruct (negb (fulfilled (common x))); [reflexivity | now apply IH].
Qed.

Lemma Close_run h cn :
  wf h cn ->
  Close cn h =
    (Done (match find (unfulfilledAt h) (ledger h cn) with
           | Some p => Some (Errorf "there is a remaining expectation %T which was not matched yet"
                                    [OExpectation p])
           | None => None
           end),
     setConn h cn {| expectations := []; active := None |}).
Proof.
  intros Hwf. destruct (wf_inv _ _ Hwf) as (mc & Hc & Hall).
  unfold Close, bind, loadConn, ledger. rewrite Hc.
  rewrite (Close_range_find _ _ Hall). unfold storeConn. now rewrite Hc.
Qed.

Lemma setConn_ledger h cn mc :
  wf h cn -> ledger (setConn h cn mc) cn = expectations mc.
Proof.
  intros Hwf. destruct (wf_inv _ _ Hwf) as (mc0 & Hc & _).
  unfold ledger, setConn; simpl.
  rewrite list_lookup_insert_eq; [reflexivity|]. now apply lookup_lt_Some in Hc.
Qed.

(** C4. On every well-formed heap [Close] ends without a panic.  It
    answers the error that carries the expectation standing at the least
    index among those whose fulfilled flag is false, if there is one, and
    nil exactly when every expectation is fulfilled.  In both cases the
    connection is left with a nil slice and a nil [active], and no
    expectation struct is written. *)
Theorem close_reports_first_unfulfilled (h : Heap) (cn : ptr) (Hwf : wf h cn) :
  exists err h',
    Close cn h = (Done err, h') /\
    (forall i p,
       ledger h cn !! i = Some p -> fulfilledAt h p = false ->
       (forall j q, (j < i)%nat -> ledger h cn !! j = Some q -> fulfilledAt h q = true) ->
       err = Some (Errorf "there is a remaining expectation %T which was not matched yet"
                          [OExpectation p])) /\
    (err = None <-> allFulfilled h cn = true) /\
    conns h' !! cn = Some {| expectations := []; active := None |} /\
    ledger h' cn = [] /\
    objs h' = objs h.
Proof.
  pose proof (wf_ledger _ _ Hwf) as Hall.
  eexists _, _. split; [now apply Close_run|].
  split; [|split; [|split; [|split]]].
  - intros i p Hi Hp Hlt.
    assert (Hf : find (unfulfilledAt h) (ledger h cn) = Some p).
    { apply (first_unfulfilled_index h _ p Hall). eauto. }
    now rewrite Hf.
  - unfold allFulfilled. rewrite <- (none_unfulfilled_all h _ Hall).
    destruct (find (unfulfilledAt h) (ledger h cn)); split; congruence.
  - destruct (wf_inv _ _ Hwf) as (mc & Hc & _). simpl.
    apply list_lookup_insert_eq. now apply lookup_lt_Some in Hc.
  - now apply setConn_ledger.
  - reflexivity.
Qed.

Lemma close_reports_first_unfulfilled_witness :
  exists err h',
    Close 0%nat fxQuery = (Done err, h') /\
    err = Some (Errorf "there is a remaining expectation %T which was not matched yet"
                       [OExpectation 0%nat]) /\
    ledger h' 0%nat = [].
Proof.
  destruct (close_reports_first_unfulfilled fxQuery 0%nat ltac:(reflexivity))
    as (err & h' & Hc & Hfirst & _ & _ & Hl & _).
  exists err, h'. repeat split; [exact Hc | | exact Hl].
  apply (Hfirst 0%nat 0%nat); [reflexivity | reflexivity |].
  intros j q Hj. lia.
Defined.

(** ** [Close] and the fulfilled flags *)

(** C5, as stated, fails: on a ledger with one expectation that was never
    reached the all-fulfilled check answers false, [Close] answers its
    error, and the check answers true afterwards, because [Close] has
    emptied the ledger. *)
Lemma close_all_fulfilled_counterexample :
  allFulfilled fxQuery 0%nat = false /\
  fst (Close 0%nat fxQuery) =
    Done (Some (Errorf "there is a remaining expectation %T which was not matched yet"
                       [OExpectation 0%nat])) /\
  allFulfilled (snd (Close 0%nat fxQuery)) 0%nat = true.
Proof. repeat split. Qed.

(** C5, amended. [Close], failed or not, writes no expectation struct:
    every expectation keeps its fulfilled flag, and the all-fulfilled
    check over the expectations that had been declared answers after
    [Close] what it answered before.  The ledger of the connection itself
    is emptied, so the check on the connection answers true afterwards. *)
Theorem close_keeps_flags (h : Heap) (cn : ptr) (Hwf : wf h cn) :
  exists err h',
    Close cn h = (Done err, h') /\
    objs h' = objs h /\
    (forall p, fulfilledAt h' p = fulfilledAt h p) /\
    allFulfilledOf h' (ledger h cn) = allFulfilledOf h (ledger h cn) /\
    allFulfilled h' cn = true.
Proof.
  eexists _, _. split; [now apply Close_run|].
  split; [reflexivity|]. split; [reflexivity|]. split; [reflexivity|].
  unfold allFulfilled. now rewrite (setConn_ledger _ _ _ Hwf).
Qed.

Lemma close_keeps_flags_witness :
  exists err h',
    Close 0%nat fxTx = (Done err, h') /\
    allFulfilledOf h' (ledger fxTx 0%nat) = allFulfilledOf fxTx (ledger fxTx 0%nat).
Proof.
  destruct (close_keeps_flags fxTx 0%nat ltac:(reflexivity))
    as (err & h' & Hc & _ & _ & Hall & _).
  exists err, h'. split; [exact Hc | exact Hall].
Defined.

(** ** The argument matcher against its specification *)

Lemma sameArg_spec v a :
  renderingClash v a = false ->
  (sameArg v a = Done true <-> positionMatches_spec v a = true).
Proof.
  unfold sameArg, positionMatches_spec, sameCategory, reflect.ValueOf.
  destruct v as [|b|[]|[]|[]|s|b|sec nsec]; destruct a as [|b'|[]|[]|[]|s'|b'|sec' nsec'];
    intros Hc; simpl in *; rewrite ?Hc; split; intros H; congruence.
Qed.

Lemma argsMatches_range_cons eargs k v rest a :
  eargs !! k = Some a ->
  argsMatches_range eargs k (v :: rest) =
    match sameArg v a with
    | Done true => argsMatches_range eargs (S k) rest
    | Done false => Done false
    | Panic pv => Panic pv
    end.
Proof.
  intros Ha. cbn [argsMatches_range]. unfold index. rewrite Ha. cbn [obind].
  destruct (sameArg v a) as [[|]|pv]; reflexivity.
Qed.

Lemma argsMatches_range_spec eargs rest k :
  (k + length rest = length eargs)%nat ->
  anyRenderingClash rest (drop k eargs) = false ->
  (argsMatches_range eargs k rest = Done true <->
   positionsMatch_spec rest (drop k eargs) = true).
Proof.
  revert k. induction rest as [|v rest IH]; intros k Hlen Hclash.
  - simpl in Hlen. rewrite drop_ge by lia. simpl. tauto.
  - simpl in Hlen. destruct (eargs !! k) as [a|] eqn:Ha.
    2:{ apply lookup_ge_None in Ha. lia. }
    rewrite (argsMatches_range_cons _ _ _ _ _ Ha).
    rewrite (drop_S _ _ _ Ha) in Hclash |- *.
    cbn [anyRenderingClash positionsMatch_spec] in Hclash |- *.
    apply orb_false_elim in Hclash as [Hc Hrest].
    pose proof (sameArg_spec v a Hc) as [Hs1 Hs2].
    destruct (sameArg v a) as [[|]|pv].
    + rewrite (Hs1 eq_refl). simpl. apply IH; [lia | assumption].
    + destruct (positionMatches_spec v a); simpl; [|split; discriminate].
      specialize (Hs2 eq_refl). discriminate.
    + destruct (positionMatches_spec v a); simpl; [|split; discriminate].
      specialize (Hs2 eq_refl). discriminate.
Qed.

Lemma positionsMatch_spec_length actual expected :
  positionsMatch_spec actual expected = true -> length actual = length expected.
Proof.
  revert expected. induction actual as [|v actual IH]; intros [|a expected]; simpl;
    try discriminate; [reflexivity|].
  intros H. apply andb_prop in H as [_ H]. f_equal. now apply IH.
Qed.

(** Where no actual string spells the rendering of an expected value that
    is no string, the matcher and its specification agree. *)
Lemma argsMatches_agrees_with_spec (e : argExpectation) (actual : list driver.Value) :
  match args e with
  | Some eargs => anyRenderingClash actual eargs = false
  | None => True
  end ->
  (argsMatches e actual = Done true <-> argsMatch_spec (args e) actual = true).
Proof.
  unfold argsMatches, argsMatch_spec. destruct (args e) as [eargs|]; [|tauto].
  intros Hclash.
  destruct (Nat.eqb_spec (length actual) (length eargs)) as [Hlen|Hlen]; simpl.
  - now apply (argsMatches_range_spec eargs actual 0%nat).
  - split; [discriminate|]. intros H. now apply positionsMatch_spec_length in H.
Qed.

(** Two values of type [time.Time] match whatever their instants. *)
Lemma time_values_match (re : regexp.Regexp) (s1 n1 s2 n2 : Z) :
  argsMatches {| sqlRegex := re; args := Some [VTime s1 n1] |} [VTime s2 n2] = Done true.
Proof. reflexivity. Qed.

(** C6 fails on one input class.  The expected argument is the [int] 5
    and the actual argument is the string ["<int Value>"]: the matcher
    answers a match and [Query] answers the rows, where equality by value
    answers no match. *)
Theorem argsMatches_string_rendering :
  argsMatches {| sqlRegex := literal "FROM articles WHERE id ="; args := Some [VInt KInt 5] |}
              [VString "<int Value>"] = Done true /\
  argsMatch_spec (Some [VInt KInt 5]) [VString "<int Value>"] = false /\
  fst (Query 0%nat "SELECT title FROM articles WHERE id = ?" [VString "<int Value>"] fxQuery) =
    Done (Some fxRows, None).
Proof. repeat split. Qed.

(** ** The fulfilled flag along a run of calls *)

Lemma rule_triggered_copy x : rule (triggered_copy x) = rule x.
Proof. now destruct x. Qed.

Lemma triggered_triggered_copy x : triggered (common (triggered_copy x)) = true.
Proof. now destruct x. Qed.

Lemma heap_after_cons h cn op rest :
  wf h cn ->
  heap_after cn (op :: rest) h = heap_after cn rest (snd (dispatch cn op h)).
Proof.
  intros Hwf. destruct (dispatch_done h cn op Hwf) as [r Hr].
  unfold heap_after. cbn [run]. unfold bind at 1.
  destruct (dispatch cn op h) as [o h1]. simpl in Hr. subst o. cbn [snd].
  unfold bind. destruct (run cn rest h1) as [[rs|pv] h2]; reflexivity.
Qed.

Lemma heap_after_wf h cn ops :
  wf h cn -> wf (heap_after cn ops h) cn.
Proof.
  revert h. induction ops as [|op rest IH]; intros h Hwf; [exact Hwf|].
  rewrite (heap_after_cons _ _ _ _ Hwf). apply IH. now apply dispatch_wf.
Qed.

Lemma heap_after_app h cn ops1 ops2 :
  wf h cn ->
  heap_after cn (ops1 ++ ops2) h = heap_after cn ops2 (heap_after cn ops1 h).
Proof.
  revert h. induction ops1 as [|op rest IH]; intros h Hwf; [reflexivity|].
  rewrite <- app_comm_cons. rewrite !(heap_after_cons _ _ _ _ Hwf).
  apply IH. now apply dispatch_wf.
Qed.

(** A run of calls ends without a panic, with one reply per call. *)
Lemma run_done h cn ops :
  wf h cn -> exists rs, fst (run cn ops h) = Done rs /\ length rs = length ops.
Proof.
  revert h. induction ops as [|op rest IH]; intros h Hwf; [now exists []|].
  destruct (dispatch_done h cn op Hwf) as [r Hr].
  pose proof (dispatch_wf h cn op Hwf) as Hwf1.
  cbn [run]. unfold bind at 1.
  destruct (dispatch cn op h) as [o h1]. simpl in Hr, Hwf1. subst o.
  destruct (IH h1 Hwf1) as (rs & Hrs & Hlen).
  unfold bind. destruct (run cn rest h1) as [o h2]. simpl in Hrs. subst o.
  exists (r :: rs). simpl. auto.
Qed.

(** Along a run a struct keeps its address and everything but its flag,
    and a flag that is set stays set. *)
Lemma heap_after_objs h cn ops q y :
  wf h cn -> objs h !! q = Some y ->
  exists y', objs (heap_after cn ops h) !! q = Some y' /\ rule y' = rule y /\
             (triggered (common y) = true -> y' = y).
Proof.
  revert h y. induction ops as [|op rest IH]; intros h y Hwf Hy.
  - exists y. auto.
  - rewrite (heap_after_cons _ _ _ _ Hwf).
    pose proof (dispatch_wf h cn op Hwf) as Hwf1.
    destruct (dispatch_objs h cn op q y Hwf Hy) as [Hsame | (Hset & Ht & _)].
    + exact (IH _ _ Hwf1 Hsame).
    + destruct (IH _ _ Hwf1 Hset) as (y' & Hy' & Hrule & _).
      exists y'. split; [exact Hy'|]. rewrite rule_triggered_copy in Hrule.
      split; [exact Hrule | congruence].
Qed.

Lemma dispatch_match_planned h cn op p x planned :
  next cn h = (Done (Some p), h) -> objs h !! p = Some x -> kindOf x = call_kind op ->
  err (common x) = Some planned ->
  exists r, dispatch cn op h = (Done r, setObj h p (triggered_copy x)) /\
            reply_error r = Some planned.
Proof.
  intros Hn Hx Hk He.
  destruct op; destruct x; simpl in Hk, He; try discriminate; unfold dispatch, bind.
  - rewrite (Begin_match _ _ _ _ Hn Hx). eauto.
  - rewrite (Commit_match _ _ _ _ Hn Hx). eauto.
  - rewrite (Rollback_match _ _ _ _ Hn Hx). eauto.
  - rewrite (Prepare_match _ _ _ _ _ Hn Hx), He. eauto.
  - rewrite (Exec_match _ _ _ _ _ _ _ _ Hn Hx), He. eauto.
  - rewrite (Query_match _ _ _ _ _ _ _ _ Hn Hx), He. eauto.
Qed.

(** C7. On a well-formed heap a call leaves every expectation struct as
    it is, except that it sets the [triggered] field of the one struct
    [next()] answers, when the dynamic type of that struct is the kind of
    the call; that field was false before.  The field is set also when
    the call answers the planned error.  Along every run of calls each
    struct keeps all its other fields, and a flag that is set after a
    prefix of the run is set after the whole run. *)
Theorem fulfilled_set_once (h : Heap) (cn : ptr) (Hwf : wf h cn) :
  (forall op q y,
     objs h !! q = Some y ->
     objs (snd (dispatch cn op h)) !! q = Some y \/
     (objs (snd (dispatch cn op h)) !! q = Some (triggered_copy y) /\
      triggered (common y) = false /\ kindOf y = call_kind op /\
      next cn h = (Done (Some q), h))) /\
  (forall op q y,
     next cn h = (Done (Some q), h) -> objs h !! q = Some y -> kindOf y = call_kind op ->
     fulfilledAt h q = false /\
     fulfilledAt (snd (dispatch cn op h)) q = true /\
     forall planned, err (common y) = Some planned ->
       exists r, fst (dispatch cn op h) = Done r /\ reply_error r = Some planned) /\
  (forall ops q y,
     objs h !! q = Some y ->
     exists y', objs (heap_after cn ops h) !! q = Some y' /\ rule y' = rule y) /\
  (forall ops1 ops2 q,
     fulfilledAt (heap_after cn ops1 h) q = true ->
     fulfilledAt (heap_after cn (ops1 ++ ops2) h) q = true).
Proof.
  split; [|split; [|split]].
  - intros op q y Hy. now apply dispatch_objs.
  - intros op q y Hn Hy Hk.
    destruct (next_some_lookup _ _ _ Hwf Hn) as (y0 & Hy0 & Ht).
    assert (y0 = y) as -> by congruence.
    destruct (dispatch_match _ _ _ _ _ Hn Hy Hk) as [r Hr].
    split; [|split].
    + unfold fulfilledAt, fulfilled. now rewrite Hy.
    + rewrite Hr. cbn [snd]. now apply fulfilledAt_setObj_triggered.
    + intros planned He.
      destruct (dispatch_match_planned _ _ _ _ _ _ Hn Hy Hk He) as (r' & Hr' & Herr).
      exists r'. now rewrite Hr'.
  - intros ops q y Hy.
    destruct (heap_after_objs h cn ops q y Hwf Hy) as (y' & Hy' & Hrule & _). eauto.
  - intros ops1 ops2 q Hq.
    rewrite (heap_after_app _ _ _ _ Hwf).
    pose proof (heap_after_wf h cn ops1 Hwf) as Hwf1.
    unfold fulfilledAt in Hq |- *.
    destruct (objs (heap_after cn ops1 h) !! q) as [y|] eqn:Hy; [|discriminate].
    destruct (heap_after_objs _ cn ops2 q y Hwf1 Hy) as (y' & Hy' & _ & Hkeep).
    rewrite Hy'. now rewrite (Hkeep Hq).
Qed.

Lemma fulfilled_set_once_witness :
  fulfilledAt fxTx 2%nat = false /\
  fulfilledAt (heap_after 0%nat [CBegin; CQuery "FROM articles WHERE id = ?" [VInt KInt64 5]; CCommit] fxTx) 2%nat = true /\
  fulfilledAt (heap_after 0%nat ([CBegin; CQuery "FROM articles WHERE id = ?" [VInt KInt64 5]; CCommit] ++ [CCommit; CRollback]) fxTx) 2%nat = true.
Proof.
  destruct (fulfilled_set_once fxTx 0%nat ltac:(reflexivity)) as (_ & _ & _ & Hmono).
  split; [reflexivity|]. split; [reflexivity|].
  apply Hmono. reflexivity.
Defined.

(** ** The deferred handler of [Exec] and [Query] *)

Lemma dispatch_done_pair h cn op :
  wf h cn -> exists r h', dispatch cn op h = (Done r, h').
Proof.
  intros Hwf. destruct (dispatch_done h cn op Hwf) as [r Hr].
  destruct (dispatch cn op h) as [o h']. simpl in Hr. subst o. eauto.
Qed.

(** C8. On a well-formed heap [Exec] and [Query] end without a panic,
    whatever the query and the arguments.  When the comparison of the
    arguments panics with a [*reflect.ValueError], the call answers no
    payload and the error that the handler builds from that value; the
    expectation is triggered all the same.  The handler turns every
    recovered [*reflect.ValueError] into that error. *)
Theorem value_error_recovered (h : Heap) (cn : ptr) (query : string)
    (actual : list driver.Value) (Hwf : wf h cn) :
  (exists r h', Exec cn query actual h = (Done r, h')) /\
  (exists r h', Query cn query actual h = (Done r, h')) /\
  (forall p ce ae payload se,
     next cn h = (Done (Some p), h) ->
     objs h !! p = Some (ExpectedExec ce ae (Some payload)) ->
     err ce = None -> queryMatches ae (stripQuery query) = true ->
     argsMatches ae actual = Panic (PValueError se) ->
     Exec cn query actual h =
       (Done (None, Some (Errorf "Failed to compare query arguments: %s" [OValueError se])),
        setObj h p (ExpectedExec (trigger ce) ae (Some payload)))) /\
  (forall p ce ae payload se,
     next cn h = (Done (Some p), h) ->
     objs h !! p = Some (ExpectedQuery ce ae (Some payload)) ->
     err ce = None -> queryMatches ae (stripQuery query) = true ->
     argsMatches ae actual = Panic (PValueError se) ->
     Query cn query actual h =
       (Done (None, Some (Errorf "Failed to compare query arguments: %s" [OValueError se])),
        setObj h p (ExpectedQuery (trigger ce) ae (Some payload)))) /\
  (forall se errp,
     argMatcherErrorHandler (Some (PValueError se)) errp =
       Done (Some (Errorf "Failed to compare query arguments: %s" [OValueError se]))).
Proof.
  split; [|split; [|split; [|split]]].
  - destruct (dispatch_done_pair h cn (CExec query actual) Hwf) as (r & h' & Hd).
    unfold dispatch, bind in Hd.
    destruct (Exec cn query actual h) as [[r0|pv] h0]; [eauto | discriminate].
  - destruct (dispatch_done_pair h cn (CQuery query actual) Hwf) as (r & h' & Hd).
    unfold dispatch, bind in Hd.
    destruct (Query cn query actual h) as [[r0|pv] h0]; [eauto | discriminate].
  - intros p ce ae payload se Hn Hx He Hq Ha.
    now rewrite (Exec_match _ _ _ _ _ _ _ _ Hn Hx), He, Hq, Ha.
  - intros p ce ae payload se Hn Hx He Hq Ha.
    now rewrite (Query_match _ _ _ _ _ _ _ _ Hn Hx), He, Hq, Ha.
  - reflexivity.
Qed.

Lemma value_error_recovered_witness :
  Query 0%nat "SELECT * FROM sales WHERE x = ?" [VInt KInt64 5] fxFloat =
    (Done (None, Some (Errorf "Failed to compare query arguments: %s"
                              [OValueError {| reflect.Method := "reflect.Value.Int";
                                              reflect.VEKind := reflect.Float64 |}])),
     triggerAt fxFloat 0%nat).
Proof.
  destruct (value_error_recovered fxFloat 0%nat "SELECT * FROM sales WHERE x = ?"
              [VInt KInt64 5] ltac:(reflexivity)) as (_ & _ & _ & HQ & _).
  eapply (HQ 0%nat); reflexivity.
Defined.

(** ** A call that nothing expects *)

(** C9. When [next()] answers nil, [Begin], [Commit], [Rollback], [Exec]
    and [Query] end without a panic, leave the heap as it is, and answer
    no success value and the error of a call that was not expected; the
    error of [Exec] and [Query] carries the stripped query and the
    arguments of the call. *)
Theorem unexpected_call_fails (h : Heap) (cn : ptr) (Hn : next cn h = (Done None, h)) :
  Begin cn h =
    (Done (None, Some (Errorf "all expectations were already fulfilled, call to begin transaction was not expected" [])), h) /\
  Commit {| tx_mockConn := cn |} h =
    (Done (Some (Errorf "all expectations were already fulfilled, call to commit transaction was not expected" [])), h) /\
  Rollback {| tx_mockConn := cn |} h =
    (Done (Some (Errorf "all expectations were already fulfilled, call to rollback transaction was not expected" [])), h) /\
  (forall query actual,
     Exec cn query actual h =
       (Done (None, Some (Errorf "all expectations were already fulfilled, call to exec '%s' query with args %+v was not expected"
                                 [OString (stripQuery query); OValues (Some actual)])), h) /\
     Query cn query actual h =
       (Done (None, Some (Errorf "all expectations were already fulfilled, call to query '%s' with args %+v was not expected"
                                 [OString (stripQuery query); OValues (Some actual)])), h)) /\
  (forall op, call_kind op <> KPrepare ->
     exists r e, dispatch cn op h = (Done r, h) /\ reply_error r = Some e /\
                 reply_value r = false).
Proof.
  split; [now apply Begin_none|]. split; [now apply Commit_none|].
  split; [now apply Rollback_none|]. split.
  - intros query actual. split; [now apply Exec_none | now apply Query_none].
  - intros op Hop. destruct op; simpl in Hop; try congruence; unfold dispatch, bind.
    + rewrite (Begin_none _ _ Hn). eauto.
    + rewrite (Commit_none _ _ Hn). eauto.
    + rewrite (Rollback_none _ _ Hn). eauto.
    + rewrite (Exec_none _ _ _ _ Hn). eauto.
    + rewrite (Query_none _ _ _ _ Hn). eauto.
Qed.

Lemma unexpected_call_fails_witness :
  Begin 0%nat fxEmpty =
    (Done (None, Some (Errorf "all expectations were already fulfilled, call to begin transaction was not expected" [])), fxEmpty).
Proof.
  destruct (unexpected_call_fails fxEmpty 0%nat eq_refl) as (HB & _). exact HB.
Defined.

(** ** A call of the wrong kind *)

Lemma dispatch_other_error h cn op p x :
  next cn h = (Done (Some p), h) -> objs h !! p = Some x ->
  call_kind op <> KPrepare -> kindOf x <> call_kind op ->
  exists r format operands,
    dispatch cn op h = (Done r, h) /\
    reply_error r = Some (Errorf format operands) /\ In (OExpectation p) operands /\
    reply_value r = false.
Proof.
  intros Hn Hx Hop Hk. destruct op; simpl in Hop, Hk; try congruence; unfold dispatch, bind.
  - rewrite (Begin_other _ _ _ _ Hn Hx Hk). eexists _, _, _. repeat split; simpl; tauto.
  - rewrite (Commit_other _ _ _ _ Hn Hx Hk). eexists _, _, _. repeat split; simpl; tauto.
  - rewrite (Rollback_other _ _ _ _ Hn Hx Hk). eexists _, _, _. repeat split; simpl; tauto.
  - rewrite (Exec_other _ _ _ _ _ _ Hn Hx Hk). eexists _, _, _. repeat split; simpl; tauto.
  - rewrite (Query_other _ _ _ _ _ _ Hn Hx Hk). eexists _, _, _. repeat split; simpl; tauto.
Qed.

(** C10. When [next()] answers an expectation whose dynamic type is not
    the kind of the call, [Begin], [Commit], [Rollback], [Exec] and
    [Query] answer no success value and an error that carries that
    expectation, and leave the heap as it is: [next()] answers the same
    expectation afterwards, and a following call of its kind sets its
    fulfilled flag. *)
Theorem sequence_mismatch_keeps_ledger (h : Heap) (cn p : ptr) (x : Expected) (op : call)
    (Hn : next cn h = (Done (Some p), h)) (Hx : objs h !! p = Some x)
    (Hop : call_kind op <> KPrepare) (Hk : kindOf x <> call_kind op) :
  exists r format operands h',
    dispatch cn op h = (Done r, h') /\
    reply_error r = Some (Errorf format operands) /\ In (OExpectation p) operands /\
    reply_value r = false /\
    h' = h /\
    next cn h' = (Done (Some p), h') /\
    (forall op', call_kind op' = kindOf x ->
       fulfilledAt (snd (dispatch cn op' h')) p = true).
Proof.
  destruct (dispatch_other_error _ _ _ _ _ Hn Hx Hop Hk)
    as (r & format & operands & Hd & He & Hin & Hv).
  exists r, format, operands, h. repeat split; auto.
  intros op' Hk'.
  destruct (dispatch_match _ _ op' _ _ Hn Hx (eq_sym Hk')) as [r' ->].
  cbn [snd]. now apply fulfilledAt_setObj_triggered.
Qed.

Lemma sequence_mismatch_keeps_ledger_witness :
  exists r h',
    dispatch 0%nat (CQuery "FROM articles WHERE id = ?" [VInt KInt64 5]) fxTx = (Done r, h') /\
    h' = fxTx /\
    fulfilledAt (snd (dispatch 0%nat CBegin h')) 0%nat = true.
Proof.
  edestruct (sequence_mismatch_keeps_ledger fxTx 0%nat 0%nat _
               (CQuery "FROM articles WHERE id = ?" [VInt KInt64 5]) eq_refl eq_refl)
    as (r & format & operands & h' & Hd & _ & _ & _ & Hh & _ & Hlater);
    [discriminate | discriminate |].
  exists r, h'. split; [exact Hd|]. split; [exact Hh|].
  apply Hlater. reflexivity.
Defined.

(** ** The declaration API builds well-formed heaps *)

Lemma Open_wf h : wf (snd (Open h)) (length (conns h)).
Proof.
  unfold wf, well_formed, Open, allocConn. simpl.
  rewrite lookup_app_r by lia. now rewrite Nat.sub_diag.
Qed.

Lemma declare_run h m x mc :
  conns h !! c m = Some mc ->
  declare m x h =
    (Done (length (objs h)),
     {| conns := <[c m := {| expectations := expectations mc ++ [length (objs h)];
                             active := Some (length (objs h)) |}]> (conns h);
        objs := objs h ++ [x] |}).
Proof.
  intros Hc. unfold declare, bind, allocObj, loadConn, storeConn. cbn [conns objs].
  rewrite Hc. cbn [conns]. rewrite Hc. reflexivity.
Qed.

Lemma declare_wf h m x : wf h (c m) -> wf (snd (declare m x h)) (c m).
Proof.
  intros Hwf. destruct (wf_inv _ _ Hwf) as (mc & Hc & Hall).
  rewrite (declare_run _ _ _ _ Hc). unfold wf, well_formed. cbn [snd conns].
  rewrite list_lookup_insert_eq by (now apply lookup_lt_Some in Hc). cbn [expectations].
  rewrite forallb_app. apply andb_true_intro. split.
  - rewrite forallb_forall in Hall |- *. intros p Hp. specialize (Hall p Hp).
    destruct (allocated_lookup _ _ Hall) as [y Hy].
    unfold allocated. cbn [objs].
    rewrite lookup_app_l by (now apply lookup_lt_Some in Hy). now rewrite Hy.
  - cbn [forallb]. unfold allocated. cbn [objs].
    rewrite lookup_app_r by lia. now rewrite Nat.sub_diag.
Qed.

Lemma update_wf h e f cn : wf h cn -> wf (snd (update e f h)) cn.
Proof.
  intros Hwf. unfold update, bind, loadObj, storeObj.
  destruct (objs h !! e) as [x|] eqn:Hx; simpl; [|exact Hwf].
  rewrite Hx. simpl. now apply setObj_wf.
Qed.

Lemma Close_wf h cn : wf h cn -> wf (snd (Close cn h)) cn.
Proof.
  intros Hwf. rewrite (Close_run _ _ Hwf). cbn [snd].
  destruct (wf_inv _ _ Hwf) as (mc & Hc & _).
  unfold wf, well_formed. simpl.
  rewrite list_lookup_insert_eq by (now apply lookup_lt_Some in Hc). reflexivity.
Qed.

(** ** Scenarios of the test suite *)

(** An [Exec] that matches the expression and the arguments answers the
    programmed result. *)
Example scenario_exec_round_trip :
  fst (Exec 0%nat "INSERT INTO articles (title) VALUES (?)" [VString "hello"] fxExec) =
    Done (Some {| LastInsertId := 1; RowsAffected := 1 |}, None).
Proof. reflexivity. Qed.

(** The query with the argument 5 answers the rows; with the argument 6
    it answers the error of arguments that do not match. *)
Example scenario_query_args :
  fst (Query 0%nat "SELECT title FROM articles WHERE id = ?" [VInt KInt64 5] fxQuery) =
    Done (Some fxRows, None) /\
  fst (Query 0%nat "SELECT title FROM articles WHERE id = ?" [VInt KInt64 6] fxQuery) =
    Done (None, Some (Errorf "query '%s', args %+v does not match expected %+v"
                             [OString "SELECT title FROM articles WHERE id = ?";
                              OValues (Some [VInt KInt64 6]); OValues (Some [VInt KInt 5])])).
Proof. split; reflexivity. Qed.

(** A multi-line query is matched in its stripped form. *)
Example scenario_strip_query :
  stripQuery "  SELECT  title
     FROM articles	WHERE id = ?  " = "SELECT title FROM articles WHERE id = ?".
Proof. reflexivity. Qed.

(** The statement prepared without an expectation fails its query while
    the transaction is not begun, and succeeds afterwards; the commit
    answers its planned error and the rollback is left over for [Close]. *)
Example scenario_wrong_expectations :
  exists stmt rows planned,
    fst (run 0%nat [CPrepare "SELECT title FROM articles WHERE id = ?"] fxTx) =
      Done [RPrepare (Some stmt, None)] /\
    fst ((r1 <- stmt_Query stmt [VInt KInt64 5] ;;
          _ <- Begin 0%nat ;;
          r2 <- stmt_Query stmt [VInt KInt64 5] ;;
          r3 <- Commit {| tx_mockConn := 0%nat |} ;;
          r4 <- Close 0%nat ;;
          ret (fst r1, r2, r3, r4)) fxTx) =
      Done (None, (Some rows, None), Some planned,
            Some (Errorf "there is a remaining expectation %T which was not matched yet"
                         [OExpectation 3%nat])).
Proof. eexists _, _, _. split; reflexivity. Qed.

(** A planned error of [Prepare] is answered without a statement. *)
Example scenario_prepare_error :
  fst (Prepare 0%nat "SELECT title FROM articles" fxPrepare) =
    Done (None, Some (Errorf "Some DB error occurred" [])).
Proof. reflexivity. Qed.

(** * Further properties of the code *)

(** ** Declaring expectations *)

Lemma find_app_list {A} (f : A -> bool) (l1 l2 : list A) :
  find f (l1 ++ l2) = match find f l1 with Some a => Some a | None => find f l2 end.
Proof.
  induction l1 as [|a l1 IH]; simpl; [reflexivity|]. now destruct (f a).
Qed.

Lemma find_pointwise {A} (f g : A -> bool) (l : list A) :
  (forall a, In a l -> f a = g a) -> find f l = find g l.
Proof.
  induction l as [|a l IH]; simpl; intros Hfg; [reflexivity|].
  rewrite (Hfg a) by auto. destruct (g a); [reflexivity|]. apply IH. auto.
Qed.

Lemma allocated_lt h p : allocated h p = true -> (p < length (objs h))%nat.
Proof.
  intros Ha. destruct (allocated_lookup _ _ Ha) as [x Hx]. now apply lookup_lt_Some in Hx.
Qed.

(** X1. [declare], the body shared by the six [Expect...] methods, ends
    without a panic on a well-formed heap.  The struct it allocates gets
    a fresh address, is appended at the tail of the ledger and becomes
    [active]; no struct that existed is written.  The heap stays
    well-formed and a ledger without repeated pointers stays so.  When
    the struct is not triggered, [next()] answers afterwards what it
    answered before if that was an expectation, and the new one if it
    answered nil. *)
Theorem declare_appends (h : Heap) (m : MockDB) (x : Expected) (Hwf : wf h (c m)) :
  exists h',
    declare m x h = (Done (length (objs h)), h') /\
    objs h' = (objs h ++ [x])%list /\
    conns h' !! c m = Some {| expectations := ledger h (c m) ++ [length (objs h)];
                              active := Some (length (objs h)) |} /\
    wf h' (c m) /\
    (NoDup (ledger h (c m)) -> NoDup (ledger h' (c m))) /\
    (triggered (common x) = false ->
     (forall p, next (c m) h = (Done (Some p), h) -> next (c m) h' = (Done (Some p), h')) /\
     (next (c m) h = (Done None, h) -> next (c m) h' = (Done (Some (length (objs h))), h'))).
Proof.
  destruct (wf_inv _ _ Hwf) as (mc & Hc & Hall).
  pose proof (declare_wf h m x Hwf) as Hwf'.
  rewrite (declare_run _ _ _ _ Hc) in Hwf' |- *. cbn [snd] in Hwf'.
  eexists. split; [reflexivity|]. split; [reflexivity|].
  assert (Hl : ledger h (c m) = expectations mc) by (unfold ledger; now rewrite Hc).
  assert (Hlook : forall A (v : A) (l : list A) i w, l !! i = Some w -> <[i := v]> l !! i = Some v).
  { intros A v l i w Hi. apply list_lookup_insert_eq. now apply lookup_lt_Some in Hi. }
  split; [cbn [conns]; rewrite Hl; now apply (Hlook _ _ _ _ mc)|].
  split; [exact Hwf'|].
  set (h' := {| conns := _; objs := _ |}) in *.
  assert (Hl' : ledger h' (c m) = (expectations mc ++ [length (objs h)])%list).
  { unfold ledger, h'. cbn [conns]. now rewrite (Hlook _ _ _ _ mc Hc). }
  split.
  - intros Hnd. rewrite Hl', <- Hl. apply NoDup_app. split; [exact Hnd|]. split.
    + intros p Hp Hp'. apply list_elem_of_singleton in Hp'. subst p.
      rewrite Hl in Hp. apply list_elem_of_In in Hp.
      rewrite forallb_forall in Hall. apply Hall, allocated_lt in Hp. lia.
    + apply NoDup_singleton.
  - intros Hx.
    assert (Hfind : find (unfulfilledAt h') (ledger h' (c m)) =
              match find (unfulfilledAt h) (ledger h (c m)) with
              | Some p => Some p
              | None => Some (length (objs h))
              end).
    { rewrite Hl', Hl, find_app_list.
      rewrite (find_pointwise (unfulfilledAt h') (unfulfilledAt h)).
      - destruct (find (unfulfilledAt h) (expectations mc)); [reflexivity|].
        simpl. unfold unfulfilledAt, h'. cbn [objs].
        rewrite lookup_app_r by lia. rewrite Nat.sub_diag. simpl.
        unfold fulfilled. now rewrite Hx.
      - intros p Hp. rewrite forallb_forall in Hall. apply Hall in Hp.
        destruct (allocated_lookup _ _ Hp) as [y Hy].
        unfold unfulfilledAt, h'. cbn [objs].
        rewrite lookup_app_l by (now apply lookup_lt_Some in Hy). reflexivity. }
    rewrite (next_find _ _ Hwf), (next_find _ _ Hwf'), Hfind.
    split.
    + intros p [= ->]. reflexivity.
    + intros [= ->]. reflexivity.
Qed.

Lemma declare_appends_witness :
  exists h',
    declare db (ExpectedRollback zeroCommon) fxEmpty = (Done 0%nat, h') /\
    next 0%nat h' = (Done (Some 0%nat), h').
Proof.
  destruct (declare_appends fxEmpty db (ExpectedRollback zeroCommon) ltac:(reflexivity))
    as (h' & Hd & _ & _ & _ & _ & Hnext).
  exists h'. split; [exact Hd|].
  apply (Hnext eq_refl). reflexivity.
Defined.

(** ** The builder methods *)

Lemma update_run h e f x :
  objs h !! e = Some x -> update e f h = (Done e, setObj h e (f x)).
Proof.
  intros He. unfold update, bind. rewrite (loadObj_some _ _ _ He).
  now rewrite (storeObj_some _ _ _ _ He).
Qed.

Lemma setObj_unfulfilledAt h e x y q :
  objs h !! e = Some x -> triggered (common y) = triggered (common x) ->
  unfulfilledAt (setObj h e y) q = unfulfilledAt h q.
Proof.
  intros He Ht. unfold unfulfilledAt. destruct (Nat.eq_dec e q) as [->|Hne].
  - rewrite (setObj_lookup_eq _ _ _ y He), He. unfold fulfilled. now rewrite Ht.
  - now rewrite setObj_lookup_ne.
Qed.

Lemma setObj_fulfilledAt h e x y q :
  objs h !! e = Some x -> triggered (common y) = triggered (common x) ->
  fulfilledAt (setObj h e y) q = fulfilledAt h q.
Proof.
  intros He Ht. unfold fulfilledAt. destruct (Nat.eq_dec e q) as [->|Hne].
  - rewrite (setObj_lookup_eq _ _ _ y He), He. unfold fulfilled. now rewrite Ht.
  - now rewrite setObj_lookup_ne.
Qed.

Lemma setObj_next h cn e x y r :
  wf h cn -> objs h !! e = Some x -> triggered (common y) = triggered (common x) ->
  next cn h = (Done r, h) -> next cn (setObj h e y) = (Done r, setObj h e y).
Proof.
  intros Hwf He Ht Hn. rewrite (next_find _ _ Hwf) in Hn.
  rewrite (next_find _ _ (setObj_wf _ e y _ Hwf)), setObj_ledger.
  rewrite (find_pointwise _ (unfulfilledAt h)).
  - congruence.
  - intros q _. now apply (setObj_unfulfilledAt _ _ x).
Qed.


Lemma update_keepsLedger h cn e x f :
  wf h cn -> objs h !! e = Some x ->
  triggered (common (f x)) = triggered (common x) -> kindOf (f x) = kindOf x ->
  keepsLedger h cn e x (update e f).
Proof.
  intros Hwf He Ht Hk. exists (f x).
  split; [now apply update_run|]. split; [exact Ht|]. split; [exact Hk|].
  split; [now apply setObj_wf|]. split; [reflexivity|].
  split; [intros q; now apply (setObj_fulfilledAt _ _ x)|].
  split; [intros q Hq; now apply setObj_lookup_ne|].
  intros r. now apply (setObj_next _ _ _ x).
Qed.

(** X2. On a well-formed heap each of the four builder methods ends
    without a panic and answers its receiver.  It writes the struct of
    its receiver only, and there neither the [triggered] field nor the
    dynamic type: every fulfilled flag, the ledger and the answer of
    [next()] are what they were. *)
Theorem builders_keep_ledger (h : Heap) (cn e : ptr) (x : Expected)
    (planned : option error) (vs : list driver.Value) (rows : option Rows)
    (result : option Result) (Hwf : wf h cn) (He : objs h !! e = Some x) :
  keepsLedger h cn e x (WillReturnError e planned) /\
  keepsLedger h cn e x (WithArgs e vs) /\
  keepsLedger h cn e x (WillReturnRows e rows) /\
  keepsLedger h cn e x (WillReturnResult e result).
Proof.
  repeat split; apply update_keepsLedger; try assumption; now destruct x.
Qed.

Lemma builders_keep_ledger_witness :
  next 0%nat (snd (WithArgs 1%nat [VInt KInt 7] fxTx)) =
    (Done (Some 0%nat), snd (WithArgs 1%nat [VInt KInt 7] fxTx)).
Proof.
  edestruct (builders_keep_ledger fxTx 0%nat 1%nat _ None [VInt KInt 7] None None
               ltac:(reflexivity) ltac:(reflexivity))
    as (_ & (y & Hb & _ & _ & _ & _ & _ & _ & Hnext) & _).
  rewrite Hb. cbn [snd]. apply Hnext. reflexivity.
Defined.

(** ** A planned error comes back from the call *)

Lemma dispatch_planned_value h cn op p x planned :
  next cn h = (Done (Some p), h) -> objs h !! p = Some x -> kindOf x = call_kind op ->
  err (common x) = Some planned ->
  exists r, dispatch cn op h = (Done r, setObj h p (triggered_copy x)) /\
            reply_error r = Some planned /\
            reply_value r = match op with CBegin => true | _ => false end.
Proof.
  intros Hn Hx Hk He.
  destruct op; destruct x; simpl in Hk, He; try discriminate; unfold dispatch, bind.
  - rewrite (Begin_match _ _ _ _ Hn Hx). eauto.
  - rewrite (Commit_match _ _ _ _ Hn Hx). eauto.
  - rewrite (Rollback_match _ _ _ _ Hn Hx). eauto.
  - rewrite (Prepare_match _ _ _ _ _ Hn Hx), He. eauto.
  - rewrite (Exec_match _ _ _ _ _ _ _ _ Hn Hx), He. eauto.
  - rewrite (Query_match _ _ _ _ _ _ _ _ Hn Hx), He. eauto.
Qed.

(** X3. When [WillReturnError(err)] is called on the expectation that
    [next()] answers and a call of its kind follows, the call answers
    [err], whatever the query, the arguments and the payload, and the
    expectation is fulfilled.  [Begin] answers a transaction handle
    beside the error; the other calls answer no value. *)
Theorem planned_error_comes_back (h : Heap) (cn p : ptr) (x : Expected) (op : call)
    (planned : error) (Hwf : wf h cn) (Hn : next cn h = (Done (Some p), h))
    (Hx : objs h !! p = Some x) (Hk : kindOf x = call_kind op) :
  exists h1 r h2,
    WillReturnError p (Some planned) h = (Done p, h1) /\
    dispatch cn op h1 = (Done r, h2) /\
    reply_error r = Some planned /\
    reply_value r = match op with CBegin => true | _ => false end /\
    fulfilledAt h2 p = true.
Proof.
  set (y := with_common {| triggered := triggered (common x); err := Some planned |} x).
  assert (Hrun : WillReturnError p (Some planned) h = (Done p, setObj h p y))
    by (unfold WillReturnError; now rewrite (update_run _ _ _ _ Hx)).
  assert (Hy : objs (setObj h p y) !! p = Some y) by (now apply (setObj_lookup_eq _ _ x)).
  assert (Hn1 : next cn (setObj h p y) = (Done (Some p), setObj h p y)).
  { apply (setObj_next _ _ _ x); try assumption. now destruct x. }
  assert (Hky : kindOf y = call_kind op) by (rewrite <- Hk; now destruct x).
  assert (Hey : err (common y) = Some planned) by (now destruct x).
  destruct (dispatch_planned_value _ _ _ _ _ _ Hn1 Hy Hky Hey) as (r & Hd & He & Hv).
  eexists _, r, _. split; [exact Hrun|]. split; [exact Hd|].
  split; [exact He|]. split; [exact Hv|].
  now apply fulfilledAt_setObj_triggered.
Qed.

Lemma planned_error_comes_back_witness :
  exists h1 r h2,
    WillReturnError 0%nat (Some (Errorf "connection refused" [])) fxTx = (Done 0%nat, h1) /\
    dispatch 0%nat CBegin h1 = (Done r, h2) /\
    reply_error r = Some (Errorf "connection refused" []) /\ reply_value r = true.
Proof.
  edestruct (planned_error_comes_back fxTx 0%nat 0%nat _ CBegin
               (Errorf "connection refused" []) ltac:(reflexivity) eq_refl eq_refl eq_refl)
    as (h1 & r & h2 & Hb & Hd & He & Hv & _).
  exists h1, r, h2. auto.
Defined.

(** ** [WithArgs] and the payload builders *)

(** X4. [WithArgs] stores the slice it is handed.  A call without
    operands hands it nil, and the expectation then accepts every list
    of actual arguments; a call with operands hands it those.  Handed a
    slice that is not nil, the expectation can only match actual lists
    of the length of that slice: handed an empty slice that is not nil,
    as [WithArgs(s...)] with an empty [s] does, it matches the empty
    list of actual arguments and no other. *)
Theorem WithArgs_stores_slice (h : Heap) (e : ptr) (x : Expected) (ae : argExpectation)
    (He : objs h !! e = Some x) (Ha : argOf x = Some ae) :
  WithArgs e [] h = WithArgs_slice e None h /\
  (forall v vs, WithArgs e (v :: vs) h = WithArgs_slice e (Some (v :: vs)) h) /\
  (forall s,
     exists y ae',
       WithArgs_slice e s h = (Done e, setObj h e y) /\ argOf y = Some ae' /\
       sqlRegex ae' = sqlRegex ae /\ args ae' = s /\
       (s = None -> forall actual, argsMatches ae' actual = Done true) /\
       (forall l actual, s = Some l -> argsMatches ae' actual = Done true ->
                         length actual = length l) /\
       (s = Some [] -> forall actual, argsMatches ae' actual = Done true <-> actual = [])).
Proof.
  split; [reflexivity|]. split; [reflexivity|]. intros s.
  assert (Hnil : forall ae', args ae' = s -> s = None ->
            forall actual, argsMatches ae' actual = Done true).
  { intros ae' Hargs Hs actual. unfold argsMatches. now rewrite Hargs, Hs. }
  assert (Hlen : forall ae' l actual, args ae' = s -> s = Some l ->
            argsMatches ae' actual = Done true -> length actual = length l).
  { intros ae' l actual Hargs Hs. unfold argsMatches. rewrite Hargs, Hs.
    destruct (Nat.eqb_spec (length actual) (length l)) as [Hl|Hl]; simpl;
      [intros _; exact Hl | discriminate]. }
  assert (Hempty : forall ae', args ae' = s -> s = Some [] ->
            forall actual, argsMatches ae' actual = Done true <-> actual = []).
  { intros ae' Hargs Hs actual. split.
    - intros Hm. pose proof (Hlen ae' [] actual Hargs Hs Hm) as Hl.
      now destruct actual.
    - intros ->. unfold argsMatches. now rewrite Hargs, Hs. }
  destruct x; simpl in Ha; try discriminate; injection Ha as <-;
    eexists _, _;
    (split; [unfold WithArgs_slice; rewrite (update_run _ _ _ _ He); reflexivity|]);
    (split; [reflexivity|]); (split; [reflexivity|]); (split; [reflexivity|]);
    (split; [now apply Hnil|]); (split; [intros l actual; now apply Hlen|]);
    now apply Hempty.
Qed.

Lemma WithArgs_stores_slice_witness :
  (exists y ae',
     WithArgs 0%nat [] fxQuery = (Done 0%nat, setObj fxQuery 0%nat y) /\
     argOf y = Some ae' /\
     argsMatches ae' [VString "anything"; VBool true] = Done true) /\
  (exists y ae',
     WithArgs_slice 0%nat (Some []) fxQuery = (Done 0%nat, setObj fxQuery 0%nat y) /\
     argOf y = Some ae' /\
     argsMatches ae' [] = Done true /\
     argsMatches ae' [VString "anything"; VBool true] <> Done true).
Proof.
  edestruct (WithArgs_stores_slice fxQuery 0%nat _ _ eq_refl eq_refl) as (Hno & _ & Hs).
  split.
  - destruct (Hs None) as (y & ae' & Hw & Ha & _ & _ & Hall & _).
    exists y, ae'. rewrite Hno. auto.
  - destruct (Hs (Some [])) as (y & ae' & Hw & Ha & _ & _ & _ & _ & Hempty).
    exists y, ae'. split; [exact Hw|]. split; [exact Ha|]. split.
    + now apply (Hempty eq_refl).
    + intros Hm. apply (Hempty eq_refl) in Hm. discriminate.
Defined.

(** X5. When [WillReturnResult(r)] is called on the [*ExpectedExec] that
    [next()] answers, no error is planned, and the query and the
    arguments of a following [Exec] match, that [Exec] answers [r],
    whatever payload had been set before, and answers an error exactly
    when [r] is nil; likewise for [WillReturnRows] and [Query]. *)
Theorem payload_comes_back (h : Heap) (cn p : ptr) (query : string)
    (actual : list driver.Value) (Hwf : wf h cn) (Hn : next cn h = (Done (Some p), h)) :
  (forall ce ae old payload,
     objs h !! p = Some (ExpectedExec ce ae old) -> err ce = None ->
     queryMatches ae (stripQuery query) = true -> argsMatches ae actual = Done true ->
     exists h1 r h2,
       WillReturnResult p payload h = (Done p, h1) /\
       Exec cn query actual h1 = (Done r, h2) /\
       fst r = payload /\ (snd r = None <-> payload <> None)) /\
  (forall ce ae old payload,
     objs h !! p = Some (ExpectedQuery ce ae old) -> err ce = None ->
     queryMatches ae (stripQuery query) = true -> argsMatches ae actual = Done true ->
     exists h1 r h2,
       WillReturnRows p payload h = (Done p, h1) /\
       Query cn query actual h1 = (Done r, h2) /\
       fst r = payload /\ (snd r = None <-> payload <> None)).
Proof.
  split; intros ce ae old payload Hx He Hq Ha.
  - set (y := ExpectedExec ce ae payload).
    assert (Hrun : WillReturnResult p payload h = (Done p, setObj h p y))
      by (unfold WillReturnResult; now rewrite (update_run _ _ _ _ Hx)).
    assert (Hy : objs (setObj h p y) !! p = Some y) by (now apply (setObj_lookup_eq _ _ _ _ Hx)).
    assert (Hn1 : next cn (setObj h p y) = (Done (Some p), setObj h p y))
      by (now apply (setObj_next _ _ _ _ _ _ Hwf Hx)).
    pose proof (Exec_match _ _ query actual _ _ _ _ Hn1 Hy) as HE.
    rewrite He, Hq, Ha in HE. subst y.
    destruct payload; eexists _, _, _; (split; [exact Hrun|]);
      (split; [exact HE|]); simpl; (split; [reflexivity|]); split; congruence.
  - set (y := ExpectedQuery ce ae payload).
    assert (Hrun : WillReturnRows p payload h = (Done p, setObj h p y))
      by (unfold WillReturnRows; now rewrite (update_run _ _ _ _ Hx)).
    assert (Hy : objs (setObj h p y) !! p = Some y) by (now apply (setObj_lookup_eq _ _ _ _ Hx)).
    assert (Hn1 : next cn (setObj h p y) = (Done (Some p), setObj h p y))
      by (now apply (setObj_next _ _ _ _ _ _ Hwf Hx)).
    pose proof (Query_match _ _ query actual _ _ _ _ Hn1 Hy) as HE.
    rewrite He, Hq, Ha in HE. subst y.
    destruct payload; eexists _, _, _; (split; [exact Hrun|]);
      (split; [exact HE|]); simpl; (split; [reflexivity|]); split; congruence.
Qed.

Lemma payload_comes_back_witness :
  exists h1 r h2,
    WillReturnResult 0%nat (Some {| LastInsertId := 42; RowsAffected := 3 |}) fxExec = (Done 0%nat, h1) /\
    Exec 0%nat "INSERT INTO articles (title) VALUES (?)" [VString "hello"] h1 = (Done r, h2) /\
    fst r = Some {| LastInsertId := 42; RowsAffected := 3 |}.
Proof.
  destruct (payload_comes_back fxExec 0%nat 0%nat "INSERT INTO articles (title) VALUES (?)"
              [VString "hello"] ltac:(reflexivity) eq_refl) as [HE _].
  edestruct (HE _ _ _ (Some {| LastInsertId := 42; RowsAffected := 3 |}) eq_refl)
    as (h1 & r & h2 & Hb & Hx & Hr & _); try reflexivity.
  exists h1, r, h2. auto.
Defined.

(** ** After [Close] *)

(** X6. After [Close], failed or not, the heap is well-formed and the
    connection has nothing pending: [next()] answers nil, a second
    [Close] answers nil and changes nothing, every call but [Prepare]
    answers an error and no value, and [Prepare] answers a statement. *)
Theorem close_then_nothing_pending (h : Heap) (cn : ptr) (Hwf : wf h cn) :
  exists err h1,
    Close cn h = (Done err, h1) /\
    wf h1 cn /\
    next cn h1 = (Done None, h1) /\
    Close cn h1 = (Done None, h1) /\
    (forall op, call_kind op <> KPrepare ->
       exists r e, dispatch cn op h1 = (Done r, h1) /\ reply_error r = Some e /\
                   reply_value r = false) /\
    (forall query,
       Prepare cn query h1 =
         (Done (Some {| stmt_mockConn := cn; stmt_query := stripQuery query |}, None), h1)).
Proof.
  pose proof (Close_wf _ _ Hwf) as Hwf1.
  rewrite (Close_run _ _ Hwf) in Hwf1 |- *. cbn [snd] in Hwf1.
  set (h1 := setConn h cn {| expectations := []; active := None |}) in *.
  assert (Hl : ledger h1 cn = []) by (now apply setConn_ledger).
  assert (Hn : next cn h1 = (Done None, h1)) by (now rewrite (next_find _ _ Hwf1), Hl).
  eexists _, h1. split; [reflexivity|]. split; [exact Hwf1|]. split; [exact Hn|]. split.
  - rewrite (Close_run _ _ Hwf1), Hl. simpl. f_equal.
    unfold setConn, h1. simpl. f_equal.
    rewrite list_insert_insert_eq. reflexivity.
  - split.
    + intros op Hop. destruct op; simpl in Hop; try congruence; unfold dispatch, bind.
      * rewrite (Begin_none _ _ Hn). eauto.
      * rewrite (Commit_none _ _ Hn). eauto.
      * rewrite (Rollback_none _ _ Hn). eauto.
      * rewrite (Exec_none _ _ _ _ Hn). eauto.
      * rewrite (Query_none _ _ _ _ Hn). eauto.
    + intros query. now apply Prepare_none.
Qed.

Lemma close_then_nothing_pending_witness :
  exists err h1,
    Close 0%nat fxTx = (Done (Some err), h1) /\ Close 0%nat h1 = (Done None, h1).
Proof.
  destruct (close_then_nothing_pending fxTx 0%nat ltac:(reflexivity))
    as (err & h1 & Hc & _ & _ & Hc2 & _).
  destruct err as [err|]; [|discriminate Hc].
  exists err, h1. auto.
Defined.

(** ** Calls in the declared order *)

Lemma find_filter_head {A} (f : A -> bool) (l : list A) :
  find f l = head (List.filter f l).
Proof.
  induction l as [|a l IH]; simpl; [reflexivity|]. now destruct (f a).
Qed.

Lemma filter_pointwise_notin (f g : ptr -> bool) (l : list ptr) (p : ptr) :
  ~ In p l -> (forall q, q <> p -> g q = f q) -> List.filter g l = List.filter f l.
Proof.
  induction l as [|a l IH]; simpl; intros Hp Hq; [reflexivity|].
  rewrite Hq by (intros ->; apply Hp; now left).
  rewrite IH by tauto. reflexivity.
Qed.

Lemma filter_drop_head (f g : ptr -> bool) (l : list ptr) (p : ptr) (ps : list ptr) :
  NoDup l -> List.filter f l = p :: ps ->
  g p = false -> (forall q, q <> p -> g q = f q) ->
  List.filter g l = ps.
Proof.
  intros Hnd. revert ps. induction l as [|a l IH]; simpl; intros ps Hf Hp Hq; [discriminate|].
  apply NoDup_cons in Hnd as [Ha Hnd].
  destruct (f a) eqn:Hfa.
  - assert (a = p) as -> by congruence. assert (ps = List.filter f l) as -> by congruence.
    rewrite Hp. apply (filter_pointwise_notin f g l p); [|assumption].
    intros Hin. apply Ha. now apply list_elem_of_In.
  - assert (a <> p).
    { intros ->. assert (Hin : In p (List.filter f l)) by (rewrite Hf; now left).
      apply filter_In in Hin as [_ Hfp]. congruence. }
    rewrite Hq, Hfa by assumption. now apply IH.
Qed.

Lemma next_pending_head h cn :
  wf h cn -> next cn h = (Done (head (pendingList h cn)), h).
Proof.
  intros Hwf. rewrite (next_find _ _ Hwf). now rewrite find_filter_head.
Qed.

Lemma dispatch_ledger h cn op :
  wf h cn -> ledger (snd (dispatch cn op h)) cn = ledger h cn.
Proof.
  intros Hwf.
  destruct (dispatch_cases h cn op Hwf)
    as [(_ & r & ->) | [(p & x & _ & _ & _ & _ & r & ->) | (p & x & _ & _ & _ & _ & r & ->)]];
    reflexivity.
Qed.

Lemma kindOf_triggered_copy x : kindOf (triggered_copy x) = kindOf x.
Proof. now destruct x. Qed.

(** A call of the kind of the first pending expectation removes it, and
    it alone, from the pending ones. *)
Lemma dispatch_pending_head h cn op p ps :
  wf h cn -> NoDup (ledger h cn) -> pendingList h cn = p :: ps ->
  kindAt h p = Some (call_kind op) ->
  pendingList (snd (dispatch cn op h)) cn = ps /\
  (forall q, kindAt (snd (dispatch cn op h)) q = kindAt h q).
Proof.
  intros Hwf Hnd Hp Hk.
  pose proof (next_pending_head _ _ Hwf) as Hn. rewrite Hp in Hn. simpl in Hn.
  unfold kindAt in Hk. destruct (objs h !! p) as [x|] eqn:Hx; [|discriminate].
  injection Hk as Hk.
  destruct (dispatch_match _ _ op _ _ Hn Hx Hk) as [r Hd]. rewrite Hd. cbn [snd].
  split.
  - unfold pendingList. rewrite setObj_ledger.
    apply (filter_drop_head (unfulfilledAt h) _ _ p); [assumption | exact Hp | |].
    + unfold unfulfilledAt. rewrite (setObj_lookup_eq _ _ _ _ Hx).
      unfold fulfilled. now rewrite triggered_triggered_copy.
    + intros q Hq. unfold unfulfilledAt. now rewrite setObj_lookup_ne by auto.
  - intros q. unfold kindAt. destruct (Nat.eq_dec p q) as [->|Hne].
    + rewrite (setObj_lookup_eq _ _ _ _ Hx), Hx. now rewrite kindOf_triggered_copy.
    + now rewrite setObj_lookup_ne.
Qed.

Lemma heap_after_ledger h cn ops :
  wf h cn -> ledger (heap_after cn ops h) cn = ledger h cn.
Proof.
  revert h. induction ops as [|op rest IH]; intros h Hwf; [reflexivity|].
  rewrite (heap_after_cons _ _ _ _ Hwf).
  rewrite (IH _ (dispatch_wf _ _ op Hwf)). now apply dispatch_ledger.
Qed.

Lemma heap_after_pending h cn ops ps1 ps2 :
  wf h cn -> NoDup (ledger h cn) -> pendingList h cn = (ps1 ++ ps2)%list ->
  Forall2 (fun p op => kindAt h p = Some (call_kind op)) ps1 ops ->
  pendingList (heap_after cn ops h) cn = ps2.
Proof.
  revert h ps1. induction ops as [|op rest IH]; intros h ps1 Hwf Hnd Hp Hk.
  - apply Forall2_nil_inv_r in Hk. now subst ps1.
  - apply Forall2_cons_inv_r in Hk as (p & ps1' & Hkp & Hk & ->).
    rewrite (heap_after_cons _ _ _ _ Hwf).
    destruct (dispatch_pending_head h cn op p (ps1' ++ ps2) Hwf Hnd Hp Hkp) as [Hp1 Hkind].
    apply (IH _ ps1'); [now apply dispatch_wf | | exact Hp1 |].
    + now rewrite dispatch_ledger.
    + eapply Forall2_impl; [exact Hk|]. intros q o Hq. now rewrite Hkind.
Qed.

(** X7. On a well-formed heap whose ledger holds no pointer twice, a run
    of calls whose kinds are, in order, the kinds of the first pending
    expectations ends without a panic with one reply per call, fulfils
    exactly those expectations and leaves the others pending in their
    order.  [Close] then answers the error of the first one left, and nil
    when none is left; whether the patterns and the arguments of the
    calls matched plays no part. *)
Theorem calls_in_declared_order (h : Heap) (cn : ptr) (ops : list call)
    (ps1 ps2 : list ptr) (Hwf : wf h cn) (Hnd : NoDup (ledger h cn))
    (Hp : pendingList h cn = (ps1 ++ ps2)%list)
    (Hk : Forall2 (fun p op => kindAt h p = Some (call_kind op)) ps1 ops) :
  exists rs h',
    run cn ops h = (Done rs, h') /\ length rs = length ops /\
    pendingList h' cn = ps2 /\
    (forall p, In p ps1 -> fulfilledAt h' p = true) /\
    (ps2 = [] <-> allFulfilled h' cn = true) /\
    fst (Close cn h') =
      Done (match ps2 with
            | [] => None
            | q :: _ => Some (Errorf "there is a remaining expectation %T which was not matched yet"
                                     [OExpectation q])
            end).
Proof.
  destruct (run_done h cn ops Hwf) as (rs & Hrs & Hlen).
  pose proof (heap_after_pending h cn ops ps1 ps2 Hwf Hnd Hp Hk) as Hp'.
  pose proof (heap_after_wf h cn ops Hwf) as Hwf'.
  pose proof (heap_after_ledger h cn ops Hwf) as Hl'.
  unfold heap_after in *. destruct (run cn ops h) as [o h']. simpl in *. subst o.
  exists rs, h'. split; [reflexivity|]. split; [exact Hlen|]. split; [exact Hp'|].
  pose proof (wf_ledger _ _ Hwf') as Hall.
  split; [|split].
  - intros p Hin.
    assert (Hled : In p (ledger h' cn)).
    { rewrite Hl'. apply (filter_In (unfulfilledAt h)). unfold pendingList in Hp.
      rewrite Hp. apply in_or_app. now left. }
    assert (Hnot : ~ In p ps2).
    { assert (Hnd' : NoDup (ps1 ++ ps2)).
      { rewrite <- Hp. unfold pendingList. apply NoDup_ListNoDup.
        apply List.NoDup_filter. now apply NoDup_ListNoDup. }
      apply NoDup_app in Hnd' as (_ & Hdis & _).
      intros Hin2. apply (Hdis p); now apply list_elem_of_In. }
    assert (Hu : unfulfilledAt h' p = false).
    { destruct (unfulfilledAt h' p) eqn:Hu; [|reflexivity]. exfalso. apply Hnot.
      rewrite <- Hp'. apply filter_In. auto. }
    rewrite forallb_forall in Hall. specialize (Hall p Hled).
    rewrite (unfulfilledAt_fulfilledAt _ _ Hall) in Hu. now destruct (fulfilledAt h' p).
  - unfold allFulfilled. rewrite <- (none_unfulfilled_all _ _ Hall), find_filter_head.
    fold (pendingList h' cn). rewrite Hp'. destruct ps2; simpl; split; congruence.
  - rewrite (Close_run _ _ Hwf'). cbn [fst]. rewrite find_filter_head.
    fold (pendingList h' cn). rewrite Hp'. now destruct ps2.
Qed.

Lemma calls_in_declared_order_witness :
  exists rs h',
    run 0%nat [CBegin; CQuery "no such table" []; CCommit; CRollback] fxTx = (Done rs, h') /\
    allFulfilled h' 0%nat = true /\ fst (Close 0%nat h') = Done None.
Proof.
  destruct (calls_in_declared_order fxTx 0%nat
              [CBegin; CQuery "no such table" []; CCommit; CRollback]
              [0; 1; 2; 3]%nat [] ltac:(reflexivity))
    as (rs & h' & Hr & _ & _ & _ & Hall & Hc).
  - apply (bool_decide_unpack _). reflexivity.
  - reflexivity.
  - repeat constructor.
  - exists rs, h'. split; [exact Hr|]. split; [now apply Hall | exact Hc].
Defined.

(** ** More on the argument matcher *)

Lemma sameArg_refl v : sameArg v v = Done (negb (isNaN v)).
Proof.
  unfold sameArg, reflect.ValueOf.
  destruct v as [|b|[]|[]|[]|s|b|sec nsec]; simpl;
    rewrite ?Z.eqb_refl, ?String.eqb_refl, ?Bool.negb_involutive; reflexivity.
Qed.

Lemma argsMatches_range_refl eargs rest k :
  drop k eargs = rest ->
  argsMatches_range eargs k rest = Done (negb (existsb isNaN rest)).
Proof.
  revert k. induction rest as [|v rest IH]; intros k Hd; [reflexivity|].
  assert (Hk : eargs !! k = Some v).
  { pose proof (lookup_drop eargs k 0) as Hl. rewrite Hd, Nat.add_0_r in Hl. now symmetry. }
  rewrite (argsMatches_range_cons _ _ _ _ _ Hk), sameArg_refl. simpl.
  destruct (isNaN v); simpl; [reflexivity|].
  apply IH. rewrite (drop_S _ _ _ Hk) in Hd. congruence.
Qed.

(** X8. An expectation declared with the very values a call passes
    matches those arguments, unless one of them is a NaN float: Go's
    [!=] holds between a NaN and itself, so the matcher then answers no
    match. *)
Theorem argsMatches_same_values (re : regexp.Regexp) (l : list driver.Value) :
  argsMatches {| sqlRegex := re; args := Some l |} l = Done (negb (existsb isNaN l)).
Proof.
  unfold argsMatches. cbn [args]. rewrite Nat.eqb_refl. simpl.
  now apply argsMatches_range_refl.
Qed.

Lemma argsMatches_range_first_failure eargs v a n :
  forall rest k,
    rest !! n = Some v -> eargs !! (k + n)%nat = Some a ->
    (forall j v' a', (j < n)%nat -> rest !! j = Some v' -> eargs !! (k + j)%nat = Some a' ->
                     sameArg v' a' = Done true) ->
    sameArg v a <> Done true ->
    argsMatches_range eargs k rest =
      match sameArg v a with Done _ => Done false | Panic pv => Panic pv end.
Proof.
  induction n as [|n IH]; intros rest k Hv Ha Hpre Hne.
  - destruct rest as [|v0 rest]; [discriminate|]. injection Hv as ->.
    rewrite Nat.add_0_r in Ha. rewrite (argsMatches_range_cons _ _ _ _ _ Ha).
    destruct (sameArg v a) as [[|]|pv]; [congruence | reflexivity | reflexivity].
  - destruct rest as [|v0 rest]; [discriminate|]. simpl in Hv.
    assert (Hk : is_Some (eargs !! k)).
    { apply lookup_lt_is_Some. apply lookup_lt_Some in Ha. lia. }
    destruct Hk as [a0 Ha0].
    rewrite (argsMatches_range_cons _ _ _ _ _ Ha0).
    rewrite (Hpre 0%nat v0 a0); [| lia | reflexivity | now rewrite Nat.add_0_r].
    apply IH; [assumption | now replace (S k + n)%nat with (k + S n)%nat by lia | | assumption].
    intros j v' a' Hj Hv' Ha'. apply (Hpre (S j)); [lia | exact Hv' |].
    now replace (k + S j)%nat with (S k + j)%nat by lia.
Qed.

Lemma argsMatches_range_all eargs :
  forall rest k,
    (forall j v' a', rest !! j = Some v' -> eargs !! (k + j)%nat = Some a' ->
                     sameArg v' a' = Done true) ->
    (k + length rest = length eargs)%nat ->
    argsMatches_range eargs k rest = Done true.
Proof.
  induction rest as [|v0 rest IH]; intros k Hall Hlen; [reflexivity|].
  simpl in Hlen.
  assert (Hk : is_Some (eargs !! k)) by (apply lookup_lt_is_Some; lia).
  destruct Hk as [a0 Ha0].
  rewrite (argsMatches_range_cons _ _ _ _ _ Ha0).
  rewrite (Hall 0%nat v0 a0); [| reflexivity | now rewrite Nat.add_0_r].
  apply IH; [|lia].
  intros j v' a' Hv' Ha'. apply (Hall (S j)); [exact Hv' |].
  now replace (k + S j)%nat with (S k + j)%nat by lia.
Qed.

(** X9. For lists of equal length the first position whose comparison
    does not succeed decides: the matcher answers no match when the
    values there differ and panics when the comparison there panics,
    whatever stands at the later positions; it answers a match when the
    comparison succeeds at every position. *)
Theorem argsMatches_first_failure (e : argExpectation) (eargs actual : list driver.Value)
    (Hargs : args e = Some eargs) (Hlen : length actual = length eargs) :
  (forall i v a,
     actual !! i = Some v -> eargs !! i = Some a ->
     (forall j v' a', (j < i)%nat -> actual !! j = Some v' -> eargs !! j = Some a' ->
                      sameArg v' a' = Done true) ->
     sameArg v a <> Done true ->
     argsMatches e actual =
       match sameArg v a with Done _ => Done false | Panic pv => Panic pv end) /\
  ((forall j v' a', actual !! j = Some v' -> eargs !! j = Some a' ->
                    sameArg v' a' = Done true) ->
   argsMatches e actual = Done true).
Proof.
  unfold argsMatches. rewrite Hargs, Hlen, Nat.eqb_refl. simpl. split.
  - intros i v a Hv Ha Hpre Hne.
    now apply (argsMatches_range_first_failure eargs v a i actual 0%nat).
  - intros Hall. apply argsMatches_range_all; [|simpl; lia]. exact Hall.
Qed.

Lemma argsMatches_first_failure_witness :
  argsMatches {| sqlRegex := literal "x"; args := Some [VInt KInt 1; VInt KInt 2; VFloat KFloat64 3] |}
              [VInt KInt64 1; VInt KInt64 5; VInt KInt64 3] = Done false.
Proof.
  destruct (argsMatches_first_failure
              {| sqlRegex := literal "x"; args := Some [VInt KInt 1; VInt KInt 2; VFloat KFloat64 3] |}
              [VInt KInt 1; VInt KInt 2; VFloat KFloat64 3]
              [VInt KInt64 1; VInt KInt64 5; VInt KInt64 3] eq_refl eq_refl) as [Hfirst _].
  apply (Hfirst 1%nat (VInt KInt64 5) (VInt KInt 2)); [reflexivity | reflexivity | | discriminate].
  intros [|j] v' a' Hj Hv Ha; [|lia]. injection Hv as <-. injection Ha as <-. reflexivity.
Defined.

(** X10. The comparison of one position panics exactly when the actual
    value is of a signed, unsigned or float kind the switch lists and the
    expected value is not of the class whose getter is called; the panic
    is the [*reflect.ValueError] naming that getter and the kind of the
    expected value.  An actual string, [uintptr] or value of any other
    kind never makes it panic. *)
Theorem sameArg_panics_iff (v a : driver.Value) (pv : panicValue) :
  sameArg v a = Panic pv <->
  numericClass (classify (reflectOps.Value_Kind v)) = true /\
  getterClass a <> classify (reflectOps.Value_Kind v) /\
  pv = PValueError {| reflect.Method := getterName (classify (reflectOps.Value_Kind v));
                      reflect.VEKind := reflectOps.Value_Kind a |}.
Proof.
  unfold sameArg, reflect.ValueOf.
  destruct v as [|b|[]|[]|[]|s|b|sec nsec]; destruct a as [|b'|[]|[]|[]|s'|b'|sec' nsec'];
    simpl; (split; [intros H; try discriminate H; injection H as <-;
                    (split; [reflexivity|]); (split; [discriminate | reflexivity])
                   | intros (Hn & Hc & ->); try discriminate Hn; try congruence; reflexivity]).
Qed.

(** ** The driver registry *)

(** X11. [Open] on a DSN without a connection allocates a fresh, empty
    connection, registers it under the DSN and answers it:
    [getConnection] finds it there, the other DSNs, the connections and
    the expectation structs that existed are untouched.  [Open] on a DSN
    that has a connection answers the collision error and no connection,
    and changes nothing. *)
Theorem mockDriver_Open_registers (dsn : string) (d : mockDriver) (h : Heap) :
  (connections d !! dsn = None ->
   exists cn d' h',
     mockDriver_Open dsn d h = ((Some cn, None), d', h') /\
     getConnection dsn d' = Some cn /\
     conns h !! cn = None /\
     conns h' !! cn = Some {| expectations := []; active := None |} /\
     wf h' cn /\ next cn h' = (Done None, h') /\
     (forall dsn', dsn' <> dsn -> getConnection dsn' d' = getConnection dsn' d) /\
     (forall c0 mc, conns h !! c0 = Some mc -> conns h' !! c0 = Some mc) /\
     objs h' = objs h /\ sequence d' = sequence d) /\
  (forall c0, connections d !! dsn = Some c0 ->
     mockDriver_Open dsn d h = ((None, Some (errors_New "DSN collision error")), d, h) /\
     getConnection dsn d = Some c0).
Proof.
  split.
  - intros Hfree. unfold mockDriver_Open. rewrite Hfree.
    eexists _, _, _. split; [reflexivity|].
    assert (Hnew : (conns h ++ [{| expectations := []; active := None |}])%list !! length (conns h)
                   = Some {| expectations := []; active := None |}).
    { rewrite lookup_app_r by lia. now rewrite Nat.sub_diag. }
    assert (Hwf : wf {| conns := (conns h ++ [{| expectations := []; active := None |}])%list;
                        objs := objs h |} (length (conns h))).
    { unfold wf, well_formed. cbn [conns]. now rewrite Hnew. }
    split; [unfold getConnection; cbn [connections]; apply lookup_insert_eq|].
    split; [apply lookup_ge_None; lia|].
    split; [exact Hnew|]. split; [exact Hwf|].
    split; [rewrite (next_find _ _ Hwf); unfold ledger; cbn [conns]; now rewrite Hnew|].
    split; [intros dsn' Hne; unfold getConnection; cbn [connections];
            now apply lookup_insert_ne|].
    split; [|split; reflexivity].
    intros c0 mc Hc0. cbn [conns]. rewrite lookup_app_l by (now apply lookup_lt_Some in Hc0).
    exact Hc0.
  - intros c0 Hc0. unfold mockDriver_Open, getConnection. now rewrite Hc0.
Qed.

Lemma mockDriver_Open_registers_witness :
  exists cn d' h',
    mockDriver_Open "mocksql://db/0"
      {| driverName := "mocksql-0xc000012345"; sequence := 1; connections := ∅ |} noHeap
      = ((Some cn, None), d', h') /\
    getConnection "mocksql://db/0" d' = Some cn /\
    fst (fst (mockDriver_Open "mocksql://db/0" d' h')) =
      (None, Some (errors_New "DSN collision error")).
Proof.
  destruct (mockDriver_Open_registers "mocksql://db/0"
              {| driverName := "mocksql-0xc000012345"; sequence := 1; connections := ∅ |}
              noHeap) as [Hfree _].
  destruct (Hfree (lookup_empty _)) as (cn & d' & h' & Ho & Hg & _).
  exists cn, d', h'. split; [exact Ho|]. split; [exact Hg|].
  destruct (mockDriver_Open_registers "mocksql://db/0" d' h') as [_ Htaken].
  destruct (Htaken cn Hg) as [Ht _]. rewrite Ht. reflexivity.
Defined.

Lemma Sprintf_d_inj (a b : Z) : Sprintf_d a = Sprintf_d b -> a = b.
Proof.
  unfold Sprintf_d. intros Heq.
  assert (Hnn : forall z, Z.to_int z <> Decimal.Pos Decimal.Nil /\
                          Z.to_int z <> Decimal.Neg Decimal.Nil).
  { intros z. split; intros Hz; pose proof (f_equal Z.of_int Hz) as Hz';
      rewrite DecimalZ.of_to in Hz'; simpl in Hz'; subst z; vm_compute in Hz; discriminate Hz. }
  apply DecimalZ.to_int_inj.
  assert (Ha := NilZero.isi (Z.to_int a) (proj1 (Hnn a)) (proj2 (Hnn a))).
  assert (Hb := NilZero.isi (Z.to_int b) (proj1 (Hnn b)) (proj2 (Hnn b))).
  rewrite Heq in Ha. congruence.
Qed.

Lemma append_inj_l (pre s t : string) : (pre ++ s = pre ++ t)%string -> s = t.
Proof.
  induction pre as [|ch pre IH]; simpl; [auto|]. intros [= H]. auto.
Qed.

Lemma wrapInt_small (z : Z) : - 2 ^ 63 <= z <= maxInt -> wrapInt z = z.
Proof.
  unfold wrapInt, maxInt. intros Hz. rewrite Z.mod_small by lia. lia.
Qed.

(** X12. While the counter has not reached the largest [int], and every
    registered DSN is one that [reserveDSN] handed out, the DSN that
    [reserveDSN] answers has no connection: [Open] on it never answers
    the collision error.  The counter goes up by one, and the registry
    again holds only DSNs that were handed out. *)
Theorem reserveDSN_never_collides (d : mockDriver) (h : Heap)
    (Hr : reserved d) (Hs : 0 <= sequence d < maxInt) :
  exists cn d2 h',
    mockDriver_Open (fst (reserveDSN d)) (snd (reserveDSN d)) h = ((Some cn, None), d2, h') /\
    getConnection (fst (reserveDSN d)) d2 = Some cn /\
    sequence d2 = sequence d + 1 /\
    reserved d2 /\
    fst (reserveDSN d2) <> fst (reserveDSN d).
Proof.
  assert (Hfree : connections (snd (reserveDSN d)) !! fst (reserveDSN d) = None).
  { cbn [reserveDSN fst snd connections].
    destruct (connections d !! ("mocksql://db/" ++ Sprintf_d (sequence d))) as [c0|] eqn:Hc;
      [|reflexivity].
    destruct (Hr _ _ Hc) as (k & Hk & Heq).
    apply append_inj_l, Sprintf_d_inj in Heq. lia. }
  destruct (mockDriver_Open_registers (fst (reserveDSN d)) (snd (reserveDSN d)) h) as [Hopen _].
  destruct (Hopen Hfree) as (cn & d2 & h' & Ho & Hg & _ & _ & _ & _ & Hother & _ & _ & Hseq).
  assert (Hseq2 : sequence d2 = sequence d + 1).
  { rewrite Hseq. cbn [reserveDSN snd sequence]. apply wrapInt_small. unfold maxInt in *. lia. }
  exists cn, d2, h'. split; [exact Ho|]. split; [exact Hg|]. split; [exact Hseq2|]. split.
  - intros dsn c0 Hd. destruct (String.string_dec dsn (fst (reserveDSN d))) as [->|Hne].
    + exists (sequence d). split; [lia | reflexivity].
    + specialize (Hother dsn Hne). unfold getConnection in Hother.
      rewrite Hother in Hd. cbn [reserveDSN snd connections] in Hd.
      destruct (Hr _ _ Hd) as (k & Hk & Heq). exists k. split; [lia | exact Heq].
  - cbn [reserveDSN fst]. rewrite Hseq2. intros Heq.
    apply append_inj_l, Sprintf_d_inj in Heq. lia.
Qed.

Lemma reserveDSN_never_collides_witness :
  exists cn d2 h',
    mockDriver_Open "mocksql://db/0"
      {| driverName := "mocksql-0xc000012345"; sequence := 1; connections := ∅ |} noHeap
      = ((Some cn, None), d2, h') /\ sequence d2 = 1.
Proof.
  destruct (reserveDSN_never_collides
              {| driverName := "mocksql-0xc000012345"; sequence := 0; connections := ∅ |} noHeap)
    as (cn & d2 & h' & Ho & _ & Hseq & _).
  - intros dsn c0 Hd. cbn [connections] in Hd. rewrite lookup_empty in Hd. discriminate.
  - unfold maxInt. simpl. lia.
  - exists cn, d2, h'. split; [exact Ho | exact Hseq].
Defined.

(** ** The statement handle *)

Lemma squeeze_squeeze (s : string) :
  forall gap, squeeze false (squeeze gap s) = squeeze gap s.
Proof.
  induction s as [|ch rest IH]; intros gap; [reflexivity|].
  simpl. destruct (isSpace ch) eqn:Hch; [apply IH|].
  destruct gap; simpl; rewrite Hch; simpl; now rewrite IH.
Qed.

Lemma trimLeft_squeeze_trimLeft (q : string) :
  trimLeft (squeeze false (trimLeft q)) = squeeze false (trimLeft q).
Proof.
  induction q as [|ch rest IH]; [reflexivity|].
  simpl. destruct (isSpace ch) eqn:Hch; [exact IH|].
  simpl. rewrite Hch. simpl. now rewrite Hch.
Qed.

Lemma stripQuery_idempotent (q : string) : stripQuery (stripQuery q) = stripQuery q.
Proof.
  unfold stripQuery. rewrite trimLeft_squeeze_trimLeft. apply squeeze_squeeze.
Qed.

Lemma Prepare_handle h cn query stmt e h1 :
  Prepare cn query h = (Done (Some stmt, e), h1) ->
  stmt = {| stmt_mockConn := cn; stmt_query := stripQuery query |} /\ e = None.
Proof.
  unfold Prepare, bind. destruct (next cn h) as [[[p|]|pv] h0]; simpl.
  - unfold loadObj. destruct (objs h0 !! p) as [x|]; [|discriminate].
    destruct x; simpl; try (intros [= <- <- _]; now split).
    unfold storeObj. destruct (objs h0 !! p); [|discriminate]. simpl.
    destruct (err ce); simpl; [discriminate|]. intros [= <- <- _]. now split.
  - intros [= <- <- _]. now split.
  - discriminate.
Qed.

(** X13. Whenever [Prepare] answers a statement handle, it answers no
    error beside it, and [Exec] and [Query] on the handle do, on every
    heap and for all arguments, what [Exec] and [Query] on the connection
    do for the query text that was prepared: the text is stripped once
    more, which changes nothing. *)
Theorem prepared_statement_runs_as_direct (h h1 : Heap) (cn : ptr) (query : string)
    (stmt : statement) (e : option error)
    (Hp : Prepare cn query h = (Done (Some stmt, e), h1)) :
  e = None /\
  forall actual h',
    stmt_Exec stmt actual h' = Exec cn query actual h' /\
    stmt_Query stmt actual h' = Query cn query actual h'.
Proof.
  destruct (Prepare_handle _ _ _ _ _ _ Hp) as [-> ->]. split; [reflexivity|].
  intros actual h'. unfold stmt_Exec, stmt_Query, Exec, Query. cbn [stmt_mockConn stmt_query].
  now rewrite stripQuery_idempotent.
Qed.

Lemma prepared_statement_runs_as_direct_witness :
  stmt_Query {| stmt_mockConn := 0%nat; stmt_query := "SELECT title FROM articles" |}
             [VInt KInt64 5] fxQuery =
  Query 0%nat "  SELECT   title FROM articles " [VInt KInt64 5] fxQuery.
Proof.
  destruct (prepared_statement_runs_as_direct fxQuery fxQuery 0%nat
              "  SELECT   title FROM articles " _ _ eq_refl) as [_ Hrun].
  apply Hrun.
Defined.
